(** * Sentixtract: the text-analytics scoring functions of
      [pranjal_assignment.py]

    Shallow embedding of [clean_and_tokenize], [calculate_sentiment_scores],
    [calculate_readability_scores] and [calculate_additional_scores].

    Conventions.
    - A Python [str] is a list of Unicode code points ([N]); a Python [int]
      is a [Z]; a Python [set] of strings is a [gset].
    - A Python [float] is idealised as an exact rational ([Q]); the literal
      [0.000001] is the rational 1/1000000. Rounding can make a quotient
      reach a bound that the exact quotient stays below, so bounds on scores
      are stated with both ends allowed.
    - [/] raises [ZeroDivisionError] on a zero divisor: it returns an
      [option], and so does every function that divides.
    - What Python and NLTK provide ([str.lower], [str.isalpha], the tables
      behind [\w] and [re.I], [word_tokenize], [sent_tokenize]) is an
      interface ([Unicode], [Tokenizer]); module [Simple] gives an ASCII
      instance on which the functions run. *)

From Stdlib Require Import ZArith QArith Lqa.
From stdpp Require Import gmap list strings.

Local Open Scope Z_scope.

(** ** Strings *)

Abbreviation char := N.
Abbreviation str := (list N).

(** A string literal, as its code points. *)
Definition py (s : string) : str :=
  map Ascii.N_of_ascii (String.list_ascii_of_string s).

(** [sep.join(ws)] *)
Fixpoint join (sep : str) (ws : list str) : str :=
  match ws with
  | [] => []
  | [w] => w
  | w :: ws' => w ++ sep ++ join sep ws'
  end.

(** [c in s] for a one-character [c]. *)
Definition char_in (c : char) (s : str) : bool := existsb (N.eqb c) s.

(** ** Numbers *)

(** [len(l)] *)
Definition len {A} (l : list A) : Z := Z.of_nat (length l).

(** [sum(l)]: the built-in starts from 0 and adds from the left. *)
Definition py_sum (l : list Z) : Z := foldl Z.add 0 l.

(** [a / b] on numbers: true division. *)
Definition truediv (a b : Q) : option Q :=
  if Qeq_bool b 0 then None else Some (a / b)%Q.

(** The literal [0.000001]. *)
Definition epsilon : Q := 1 # 1000000.

(** ** What the interpreter and NLTK provide *)

Class Unicode := {
  (** [str.lower] *)
  str_lower : str → str;
  (** [str.isalpha] on one character *)
  char_isalpha : char → bool;
  (** [\w] of [re] *)
  re_word : char → bool;
  (** a pattern character against a text character under [re.I] *)
  re_ignorecase : char → char → bool
}.

Class Tokenizer := {
  (** [nltk.tokenize.word_tokenize] *)
  word_tokenize : str → list str;
  (** [nltk.tokenize.sent_tokenize] *)
  sent_tokenize : str → list str
}.

(** [str.isalpha]: at least one character, and all of them alphabetic. *)
Definition isalpha `{Unicode} (s : str) : bool :=
  match s with
  | [] => false
  | _ => forallb char_isalpha s
  end.

(** ** Tokenizer/Cleaner *)

(** The condition of the comprehension in [clean_and_tokenize]. *)
Definition keeps `{Unicode} (stop_words : gset str) (word : str) : Prop :=
  isalpha word = true ∧ word ∉ stop_words.

#[global] Instance keeps_dec `{Unicode} stop_words word :
  Decision (keeps stop_words word).
Proof. unfold keeps. apply _. Defined.

Definition clean_and_tokenize `{Unicode} `{Tokenizer}
    (text : str) (stop_words : gset str) : list str :=
  let words := word_tokenize (str_lower text) in
  let cleaned_words := filter (keeps stop_words) words in
  cleaned_words.

(** ** Sentiment Scorer *)

Record sentiment := {
  positive_score : Z;
  negative_score : Z;
  polarity_score : Q;
  subjectivity_score : Q
}.

(** [sum(1 for word in words if word in s)] *)
Definition count_hits (words : list str) (s : gset str) : Z :=
  py_sum (map (λ _, 1) (filter (λ word, word ∈ s) words)).

Definition calculate_sentiment_scores
    (words : list str) (positive_words negative_words : gset str)
    : option sentiment :=
  let positive_score := count_hits words positive_words in
  let negative_score := count_hits words negative_words in
  polarity_score ←
    truediv (inject_Z (positive_score - negative_score))
            (inject_Z (positive_score + negative_score) + epsilon)%Q;
  subjectivity_score ←
    truediv (inject_Z (positive_score + negative_score))
            (inject_Z (len words) + epsilon)%Q;
  Some {| positive_score := positive_score;
          negative_score := negative_score;
          polarity_score := polarity_score;
          subjectivity_score := subjectivity_score |}.

(** ** Readability Scorer *)

Record readability := {
  avg_sentence_length : Q;
  percentage_complex_words : Q;
  fog_index : Q;
  complex_word_count : Z;
  word_count : Z
}.

(** [len([char for char in word if char in 'aeiou'])] *)
Definition vowel_chars (word : str) : Z :=
  len (filter (λ c, char_in c (py "aeiou") = true) word).

(** The condition of the comprehension that builds [complex_words]. *)
Definition is_complex (word : str) : Prop := vowel_chars word > 2.

#[global] Instance is_complex_dec word : Decision (is_complex word).
Proof. unfold is_complex. apply _. Defined.

Definition calculate_readability_scores `{Tokenizer} (text : str)
    : option readability :=
  let sentences := sent_tokenize text in
  let words := word_tokenize text in
  let num_sentences := len sentences in
  let num_words := len words in
  avg_sentence_length ←
    (if decide (num_sentences > 0)
     then truediv (inject_Z num_words) (inject_Z num_sentences)
     else Some 0%Q);
  let complex_words := filter is_complex words in
  percentage_complex_words ←
    (if decide (num_words > 0)
     then truediv (inject_Z (len complex_words)) (inject_Z num_words)
     else Some 0%Q);
  let fog_index :=
    ((4 # 10) * (avg_sentence_length + percentage_complex_words))%Q in
  Some {| avg_sentence_length := avg_sentence_length;
          percentage_complex_words := percentage_complex_words;
          fog_index := fog_index;
          complex_word_count := len complex_words;
          word_count := num_words |}.

(** ** Lexical Stats Scorer *)

Record additional := {
  syllable_count : Z;
  personal_pronouns : Z;
  avg_word_length : Q;
  avg_syllables_per_word : Q
}.

(** [re.findall] of a one-character class such as [[aeiou]], without flags:
    one match per character of the class, from left to right. *)
Definition findall_class (class : str) (s : str) : list str :=
  map (λ c, [c]) (filter (λ c, char_in c class = true) s).

(** The alternatives of [(I|we|my|ours|us)], in the pattern's order. *)
Definition pronouns : list str :=
  [py "I"; py "we"; py "my"; py "ours"; py "us"].

Section Regex.
Context `{Unicode}.

(** Whether the character on one side of a position is a word character;
    there is none before the first and after the last position. *)
Definition side_is_word (o : option char) : bool :=
  match o with
  | Some c => re_word c
  | None => false
  end.

(** [\b]: exactly one side of the position is a word character. *)
Definition word_boundary (prev next : option char) : bool :=
  xorb (side_is_word prev) (side_is_word next).

(** A literal under [re.I] at the head of [s]: the matched text and what
    follows it. *)
Fixpoint match_literal (lit s : str) : option (str * str) :=
  match lit with
  | [] => Some ([], s)
  | p :: lit' =>
      match s with
      | c :: s' =>
          if re_ignorecase p c
          then match match_literal lit' s' with
               | Some (m, rest) => Some (c :: m, rest)
               | None => None
               end
          else None
      | [] => None
      end
  end.

(** The character before the position that follows a match [m]. *)
Definition before_end (prev : option char) (m : str) : option char :=
  match last m with
  | Some c => Some c
  | None => prev
  end.

(** [(alt1|alt2|...)\b]: the first alternative, in order, whose literal
    matches and after which [\b] holds; the engine backtracks into the
    next alternative otherwise. *)
Fixpoint match_alternatives (alts : list str) (prev : option char) (s : str)
    : option (str * str) :=
  match alts with
  | [] => None
  | alt :: alts' =>
      match match_literal alt s with
      | Some (m, rest) =>
          if word_boundary (before_end prev m) (head rest)
          then Some (m, rest)
          else match_alternatives alts' prev s
      | None => match_alternatives alts' prev s
      end
  end.

(** [\b(I|we|my|ours|us)\b] anchored at one position. *)
Definition match_here (prev : option char) (s : str) : option (str * str) :=
  if word_boundary prev (head s)
  then match_alternatives pronouns prev s
  else None.

(** The scan of [re.findall]: try the pattern at the current position;
    after a match go on from its end, otherwise move one character on. *)
Fixpoint findall_from (fuel : nat) (prev : option char) (s : str)
    : list str :=
  match fuel with
  | O => []
  | S fuel' =>
      match match_here prev s with
      | Some (m, rest) => m :: findall_from fuel' (before_end prev m) rest
      | None =>
          match s with
          | [] => []
          | c :: s' => findall_from fuel' (Some c) s'
          end
      end
  end.

(** [re.findall(r'\b(I|we|my|ours|us)\b', s, re.I)]; every step of the
    scan either stops or consumes a character, so [S (length s)] steps
    are enough (lemma [findall_from_enough]). *)
Definition findall_pronouns (s : str) : list str :=
  findall_from (S (length s)) None s.

Definition calculate_additional_scores (words : list str)
    : option additional :=
  let syllable_count :=
    py_sum (map (λ word, len (findall_class (py "aeiou") word)) words) in
  let personal_pronouns := len (findall_pronouns (join (py " ") words)) in
  avg_word_length ←
    match words with
    | [] => Some 0%Q
    | _ => truediv (inject_Z (py_sum (map len words))) (inject_Z (len words))
    end;
  avg_syllables_per_word ←
    match words with
    | [] => Some 0%Q
    | _ => truediv (inject_Z syllable_count) (inject_Z (len words))
    end;
  Some {| syllable_count := syllable_count;
          personal_pronouns := personal_pronouns;
          avg_word_length := avg_word_length;
          avg_syllables_per_word := avg_syllables_per_word |}.
End Regex.

(** ** An ASCII instance

    The tables restricted to ASCII, and a tokenizer that splits at white
    space and reports a text with at least one token as one sentence.  It
    stands in for NLTK where a function has to run on a concrete text. *)

Module Simple.

Definition is_upper (c : char) : bool := ((65 <=? c) && (c <=? 90))%N.
Definition is_lower (c : char) : bool := ((97 <=? c) && (c <=? 122))%N.
Definition is_digit (c : char) : bool := ((48 <=? c) && (c <=? 57))%N.
Definition is_space (c : char) : bool :=
  ((c =? 32) || (c =? 9) || (c =? 10) || (c =? 13))%N.

Definition lower_char (c : char) : char :=
  if is_upper c then (c + 32)%N else c.

#[export] Instance unicode : Unicode := {|
  str_lower := map lower_char;
  char_isalpha c := is_upper c || is_lower c;
  re_word c := is_upper c || is_lower c || is_digit c || (c =? 95)%N;
  re_ignorecase p c := (lower_char p =? lower_char c)%N
|}.

(** Split at white space; [cur] is the token being read. *)
Fixpoint split_from (cur : str) (s : str) : list str :=
  match s with
  | [] => match cur with [] => [] | _ => [cur] end
  | c :: s' =>
      if is_space c
      then match cur with
           | [] => split_from [] s'
           | _ => cur :: split_from [] s'
           end
      else split_from (cur ++ [c]) s'
  end.

Definition split (s : str) : list str := split_from [] s.

#[export] Instance tokenizer : Tokenizer := {|
  word_tokenize := split;
  sent_tokenize text := match split text with [] => [] | _ => [text] end
|}.

End Simple.


(** ** Reference definitions, in the specification's words *)

(** The number of tokens of [words] that are members of [s]. *)
Definition members (words : list str) (s : gset str) : Z :=
  Z.of_nat (length (filter (λ word, word ∈ s) words)).

(** The number of vowel characters of [word], upper- or lower-case. *)
Definition vowels_any_case (word : str) : Z :=
  len (filter (λ c, char_in c (py "aeiouAEIOU") = true) word).

(** The number of lower-case vowel characters in all of [words]. *)
Fixpoint vowel_occurrences (words : list str) : Z :=
  match words with
  | [] => 0
  | word :: words' =>
      Z.of_nat (length (filter (λ c, c ∈ py "aeiou") word))
      + vowel_occurrences words'
  end.

Section WholeWords.
Context `{Unicode}.

(** [seg] is [lit] up to case. *)
Fixpoint same_ignoring_case (lit seg : str) : bool :=
  match lit, seg with
  | [], [] => true
  | p :: lit', c :: seg' => re_ignorecase p c && same_ignoring_case lit' seg'
  | _, _ => false
  end.

(** The character of [text] just before position [i]. *)
Definition char_before (text : str) (i : nat) : option char :=
  match i with
  | O => None
  | S j => text !! j
  end.

(** [lit] occurs in [text] at position [i] as a whole word: the characters
    from [i] on are [lit] up to case, and neither the character before the
    occurrence nor the one after it is a word character. *)
Definition whole_word_at (text : str) (i : nat) (lit : str) : bool :=
  same_ignoring_case lit (take (length lit) (drop i text))
  && negb (side_is_word (char_before text i))
  && negb (side_is_word (text !! (i + length lit)%nat)).

(** The number of positions of [text] at which one of the pronouns occurs as
    a whole word. *)
Definition whole_word_occurrences (text : str) : Z :=
  len (filter (λ i, existsb (whole_word_at text i) pronouns = true)
              (seq 0 (length text))).
End WholeWords.

(** ** What the cleaner takes from Python and NLTK

    [clean_and_tokenize] calls [str.lower] and [word_tokenize]; what it does
    on its own output depends on three facts about them. *)

Section Assumptions.
Context `{Unicode} `{Tokenizer}.

(** Lower-casing leaves the alphabetic tokens of a lower-cased text as they
    are: the tokenizer does not change the case of a word. *)
Definition tokens_stay_lower : Prop :=
  ∀ (text word : str),
    word ∈ word_tokenize (str_lower text) →
    isalpha word = true →
    str_lower word = word.

(** Lower-casing leaves a space-joined list of lower-case words as it is. *)
Definition join_stays_lower : Prop :=
  ∀ words : list str,
    Forall (λ word, str_lower word = word) words →
    str_lower (join (py " ") words) = join (py " ") words.

(** Alphabetic tokens that the tokenizer has produced, joined by single
    spaces, are tokenized into themselves. *)
Definition retokenizes : Prop :=
  ∀ (text : str) (words : list str),
    words `sublist_of` word_tokenize text →
    Forall (λ word, isalpha word = true) words →
    word_tokenize (join (py " ") words) = words.
End Assumptions.

(** ** What the pronoun pattern takes from [re]

    Under [re.I] a letter of the pattern matches letters only, and letters
    are word characters. *)

Definition pattern_letters_are_words `{Unicode} : Prop :=
  ∀ (lit : str) (p c : char),
    lit ∈ pronouns → p ∈ lit → re_ignorecase p c = true → re_word c = true.

(** ** Whole-word occurrences, position by position

    [starts_whole_word prev s]: one of the pronouns occurs as a whole word at
    the head of [s], where [prev] is the character before [s]. *)

Section Positions.
Context `{Unicode}.

Definition starts_whole_word (prev : option char) (s : str) : bool :=
  existsb
    (λ lit,
       match match_literal lit s with
       | Some (_, rest) =>
           negb (side_is_word prev) && negb (side_is_word (head rest))
       | None => false
       end)
    pronouns.

Fixpoint count_whole_words (prev : option char) (s : str) : nat :=
  ((if starts_whole_word prev s then 1 else 0)
   + match s with
     | [] => 0
     | c :: s' => count_whole_words (Some c) s'
     end)%nat.
End Positions.

(** ** Pronouns among the words

    [is_pronoun word]: the whole of [word] is I, we, my, ours or us up to
    case. *)

Section PronounWords.
Context `{Unicode}.

Definition is_pronoun (word : str) : bool :=
  existsb (λ lit, same_ignoring_case lit word) pronouns.

(** The number of words of the list that are pronouns. *)
Definition pronoun_words (words : list str) : Z :=
  len (filter (λ word, is_pronoun word = true) words).

(** A word made of word characters, as [\w+] matches it. *)
Definition is_word (word : str) : Prop :=
  word ≠ [] ∧ Forall (λ c, re_word c = true) word.

(** The space is no word character. *)
Definition space_is_no_word : Prop := re_word 32%N = false.

(** Alphabetic characters are word characters. *)
Definition alphabetic_are_words : Prop :=
  ∀ c : char, char_isalpha c = true → re_word c = true.
End PronounWords.

(** ** Text files and string methods

    A file is its bytes. Reading it in text mode decodes the bytes and then
    turns every line end into a line feed; the Latin-1 codec maps a byte to
    the code point of the same value and fails on none, the UTF-8 codec is
    the interpreter's. White space is what [str.isspace] accepts. *)

Class Spaces := {
  (** [str.isspace] on one character *)
  char_isspace : char → bool
}.

Class Codec := {
  (** [bytes.decode('utf-8')]; [None] stands for [UnicodeDecodeError] *)
  decode_utf8 : list Byte.byte → option str
}.

(** [bytes.decode('latin')] *)
Definition decode_latin (bytes : list Byte.byte) : str :=
  map Byte.to_N bytes.

(** Universal newlines, as [open] in text mode applies them on reading:
    CR LF and a lone CR become LF. *)
Fixpoint universal_newlines (s : str) : str :=
  match s with
  | [] => []
  | c :: s' =>
      if (c =? 13)%N
      then 10%N :: match s' with
                   | c' :: s'' =>
                       if (c' =? 10)%N
                       then universal_newlines s''
                       else universal_newlines s'
                   | [] => []
                   end
      else c :: universal_newlines s'
  end.

(** [file.readline()] on the text that is left to read: the line with its
    line feed, and what is left after it. *)
Fixpoint readline (s : str) : str * str :=
  match s with
  | [] => ([], [])
  | c :: s' =>
      if (c =? 10)%N
      then ([c], s')
      else let (line, rest) := readline s' in (c :: line, rest)
  end.

Section StringMethods.
Context `{Spaces}.

(** [s.split()]: the maximal runs of characters that are not white space;
    [cur] is the run being read. *)
Fixpoint split_runs (cur : str) (s : str) : list str :=
  match s with
  | [] => match cur with [] => [] | _ => [cur] end
  | c :: s' =>
      if char_isspace c
      then match cur with
           | [] => split_runs [] s'
           | _ => cur :: split_runs [] s'
           end
      else split_runs (cur ++ [c]) s'
  end.

Definition py_split (s : str) : list str := split_runs [] s.

(** [s.lstrip()], [s.rstrip()], [s.strip()] *)
Fixpoint lstrip (s : str) : str :=
  match s with
  | [] => []
  | c :: s' => if char_isspace c then lstrip s' else s
  end.

Definition rstrip (s : str) : str := reverse (lstrip (reverse s)).

Definition strip (s : str) : str := rstrip (lstrip s).
End StringMethods.

(** [s.split(sep)] for a separator of one character; [cur] is the piece
    being read. The result is never empty. *)
Fixpoint split_pieces (sep : char) (cur : str) (s : str) : list str :=
  match s with
  | [] => [cur]
  | c :: s' =>
      if (c =? sep)%N
      then cur :: split_pieces sep [] s'
      else split_pieces sep (cur ++ [c]) s'
  end.

Definition split_on (sep : char) (s : str) : list str :=
  split_pieces sep [] s.

(** [s.endswith(suffix)] *)
Definition endswith (s suffix : str) : bool :=
  bool_decide (suffix `suffix_of` s).

(** ** Lexicon Loader *)

Section Loader.
Context `{Spaces} `{Codec}.

(** [load_stopwords]: [files] are the bytes of the files of the directory
    [StopWords], in the order of [os.listdir]; each is read as Latin-1. *)
Definition load_stopwords (files : list (list Byte.byte)) : gset str :=
  foldl
    (λ (stopwords : gset str) bytes,
       let words := py_split (universal_newlines (decode_latin bytes)) in
       stopwords ∪ list_to_set words)
    ∅ files.

(** One dictionary file of [load_master_dict]: read as UTF-8 and, when that
    raises [UnicodeDecodeError], read again as Latin-1. [None] as argument is
    a file that does not exist; [None] as result is the [FileNotFoundError]
    that [open] raises then. *)
Definition load_words (file : option (list Byte.byte)) : option (gset str) :=
  bytes ← file;
  match decode_utf8 bytes with
  | Some text => Some (∅ ∪ list_to_set (py_split (universal_newlines text)))
  | None =>
      Some (∅ ∪ list_to_set
                  (py_split (universal_newlines (decode_latin bytes))))
  end.

(** [load_master_dict]: the positive file first, then the negative one. *)
Definition load_master_dict
    (positive_file negative_file : option (list Byte.byte))
    : option (gset str * gset str) :=
  positive_words ← load_words positive_file;
  negative_words ← load_words negative_file;
  Some (positive_words, negative_words).
End Loader.

(** ** Analysis Orchestrator *)

(** One row of [output_data]; the fields are the columns of the output
    sheet, in their order. *)
Record score_row := {
  URL_ID : str;
  URL : str;
  POSITIVE_SCORE : Z;
  NEGATIVE_SCORE : Z;
  POLARITY_SCORE : Q;
  SUBJECTIVITY_SCORE : Q;
  AVG_SENTENCE_LENGTH : Q;
  PERCENTAGE_OF_COMPLEX_WORDS : Q;
  FOG_INDEX : Q;
  AVG_NUMBER_OF_WORDS_PER_SENTENCE : Q;
  COMPLEX_WORD_COUNT : Z;
  WORD_COUNT : Z;
  SYLLABLE_PER_WORD : Q;
  PERSONAL_PRONOUNS : Z;
  AVG_WORD_LENGTH : Q
}.

(** [dict(pairs)]: a later pair replaces an earlier one with the same key. *)
Definition dict_of (pairs : list (str * str)) : gmap str str :=
  foldl (λ (d : gmap str str) kv, <[kv.1 := kv.2]> d) ∅ pairs.

(** [d.get(key, default)] *)
Definition dict_get (d : gmap str str) (key default : str) : str :=
  match d !! key with
  | Some value => value
  | None => default
  end.

(** The name of the file that [extract_data] writes for [url_id], inside
    the output directory: [f"{url_id}.txt"]. *)
Definition article_file_name (url_id : str) : str := url_id ++ py ".txt".

(** What [extract_data] writes into it: [f"{title}\n{article_text}"]. *)
Definition article_file_text (title article_text : str) : str :=
  title ++ 10%N :: article_text.

(** [file_name.split(".")[0]]; [None] would be an [IndexError]. *)
Definition url_id_of (file_name : str) : option str :=
  split_on 46%N file_name !! 0%nat.

Section Orchestrator.
Context `{Unicode} `{Tokenizer} `{Spaces} `{Codec}.

(** The title and the article text that [analyze_data] reads from the text
    of a file: the first line and the rest, both stripped. *)
Definition read_article (text : str) : str * str :=
  let (first_line, rest) := readline text in
  let title := strip first_line in
  let article_text := strip rest in
  (title, article_text).

(** The body of the loop of [analyze_data], for one file of the article
    directory. *)
Definition analyze_article
    (stop_words positive_words negative_words : gset str)
    (url_mapping : gmap str str)
    (file_name : str) (bytes : list Byte.byte) : option score_row :=
  url_id ← url_id_of file_name;
  let url := dict_get url_mapping url_id [] in
  text ← decode_utf8 bytes;
  let (title, article_text) := read_article (universal_newlines text) in
  let cleaned_words := clean_and_tokenize article_text stop_words in
  sentiment ←
    calculate_sentiment_scores cleaned_words positive_words negative_words;
  readability ← calculate_readability_scores article_text;
  additional ← calculate_additional_scores cleaned_words;
  Some {| URL_ID := url_id;
          URL := url;
          POSITIVE_SCORE := positive_score sentiment;
          NEGATIVE_SCORE := negative_score sentiment;
          POLARITY_SCORE := polarity_score sentiment;
          SUBJECTIVITY_SCORE := subjectivity_score sentiment;
          AVG_SENTENCE_LENGTH := avg_sentence_length readability;
          PERCENTAGE_OF_COMPLEX_WORDS := percentage_complex_words readability;
          FOG_INDEX := fog_index readability;
          AVG_NUMBER_OF_WORDS_PER_SENTENCE := avg_sentence_length readability;
          COMPLEX_WORD_COUNT := complex_word_count readability;
          WORD_COUNT := word_count readability;
          SYLLABLE_PER_WORD := avg_syllables_per_word additional;
          PERSONAL_PRONOUNS := personal_pronouns additional;
          AVG_WORD_LENGTH := avg_word_length additional |}.

(** [analyze_data]. [stop_files] are the files of [StopWords];
    [positive_file] and [negative_file] the two dictionary files ([None]: the
    file does not exist); [url_ids] and [urls] the two columns of the input
    sheet; [article_dir] the names and bytes of the files of the article
    directory, in the order of [os.listdir]. The result is [output_data],
    or [None] when an exception ends the run. The directories and the sheet
    are taken as read: a directory that does not exist or an entry that
    cannot be opened is not part of this model, and the identifiers of the
    sheet are strings. *)
Definition analyze_data
    (stop_files : list (list Byte.byte))
    (positive_file negative_file : option (list Byte.byte))
    (url_ids urls : list str)
    (article_dir : list (str * list Byte.byte)) : option (list score_row) :=
  let stop_words := load_stopwords stop_files in
  dicts ← load_master_dict positive_file negative_file;
  let url_mapping := dict_of (zip url_ids urls) in
  let file_list :=
    filter (λ file, endswith file.1 (py ".txt") = true) article_dir in
  mapM (λ file,
          analyze_article stop_words dicts.1 dicts.2 url_mapping
            file.1 file.2)
       file_list.
End Orchestrator.

(** The part of [s] before its first [sep], or all of [s] when it holds
    none. *)
Fixpoint before_first (sep : char) (s : str) : str :=
  match s with
  | [] => []
  | c :: s' => if (c =? sep)%N then [] else c :: before_first sep s'
  end.

(** ** ASCII instances for files

    The white space of ASCII as [str.isspace] has it, and a decoder that
    accepts the bytes below 128 only, on which UTF-8 and ASCII agree. *)

Definition ascii_isspace (c : char) : bool :=
  (((9 <=? c) && (c <=? 13)) || ((28 <=? c) && (c <=? 32)))%N.

Definition ascii_decode (bytes : list Byte.byte) : option str :=
  if forallb (λ b, (Byte.to_N b <? 128)%N) bytes
  then Some (map Byte.to_N bytes)
  else None.

Definition ascii_spaces : Spaces := {| char_isspace := ascii_isspace |}.

Definition ascii_codec : Codec := {| decode_utf8 := ascii_decode |}.

(** The bytes of an ASCII string literal. *)
Definition bytes_of (s : string) : list Byte.byte :=
  String.list_byte_of_string s.

(** ** Document extraction

    What [requests] and [BeautifulSoup] give for a URL: the text of the
    [title] element, when the page has one, and the texts of the [p], [ol]
    and [pre] elements inside the article [div], when the page has that
    [div]. [fetch] returns [None] when the request raises an exception. *)

Record page := {
  page_title : option str;
  page_paragraphs : option (list str)
}.

Class Web := {
  fetch : str → option page
}.

(** What the file system gives: whether [open(name, "w")] succeeds for a
    file name in the output directory. It raises for a name that is no valid
    file name. *)
Class Disk := {
  can_open : str → bool
}.

(** Whether the UTF-8 codec encodes the text: it raises
    [UnicodeEncodeError] on a surrogate code point. *)
Definition utf8_encodable (text : str) : bool :=
  forallb (λ c, negb ((55296 <=? c) && (c <=? 57343))%N) text.

(** The loop of [extract_data] over the rows (URL_ID, URL) of the input
    sheet. [files] maps the names of the files of the output directory to
    their texts. The result is the directory after the run and whether the
    run came to its end ([false]: an exception ended it). A page without
    [title] element raises one, since [get_text] is called on [None]; a page
    without article [div] is reported and skipped. Opening the file for
    writing empties it; when the text cannot be encoded, [write] raises and
    the file stays empty. *)
Fixpoint extract_rows `{Web} `{Disk} (rows : list (str * str))
    (files : gmap str str) : gmap str str * bool :=
  match rows with
  | [] => (files, true)
  | (url_id, url) :: rows' =>
      match fetch url with
      | None => (files, false)
      | Some response =>
          match page_title response with
          | None => (files, false)
          | Some title =>
              match page_paragraphs response with
              | Some paragraphs =>
                  let article_text := join (py " ") paragraphs in
                  if can_open (article_file_name url_id)
                  then
                    if utf8_encodable (article_file_text title article_text)
                    then
                      extract_rows rows'
                        (<[article_file_name url_id :=
                             article_file_text title article_text]> files)
                    else (<[article_file_name url_id := []]> files, false)
                  else (files, false)
              | None => extract_rows rows' files
              end
          end
      end
  end.

Definition extract_data `{Web} `{Disk} (url_ids urls : list str)
    (files : gmap str str) : gmap str str * bool :=
  extract_rows (zip url_ids urls) files.


(** A file system on which every name can be opened. *)
Definition open_disk : Disk := {| can_open _ := true |}.

(** A web of one article page, for running the extraction: every other
    URL gives a page with a title and no article. *)
Definition example_web : Web := {|
  fetch url :=
    if decide (url = py "https://a.example/1")
    then Some {| page_title := Some (py "Rising cities");
                 page_paragraphs := Some [py "Cities grow."; py "We see it."] |}
    else Some {| page_title := Some (py "Not found");
                 page_paragraphs := None |}
|}.

(** ** Upper-case letters

    [str.isupper] on one character: the character is an upper-case letter.
    One such letter, U+03D2 (the Greek upsilon with hook), is alphabetic and
    has no lower-case form: [str.lower] leaves it as it is. Module [Upsilon]
    adds this letter to the ASCII tables. *)

Class Cases := {
  char_isupper : char → bool
}.

(** The entry holds an upper-case letter. *)
Definition has_upper `{Cases} (entry : str) : bool :=
  existsb char_isupper entry.

(** The stop words in which no letter is upper-case. *)
Definition without_upper `{Cases} (stop_words : gset str) : gset str :=
  filter (λ entry, has_upper entry = false) stop_words.

Module Upsilon.

Definition hook : char := 978%N.

#[export] Instance unicode : Unicode := {|
  str_lower := map Simple.lower_char;
  char_isalpha c := Simple.is_upper c || Simple.is_lower c || (c =? hook)%N;
  re_word c :=
    Simple.is_upper c || Simple.is_lower c || Simple.is_digit c
    || (c =? 95)%N || (c =? hook)%N;
  re_ignorecase p c := (Simple.lower_char p =? Simple.lower_char c)%N
|}.

#[export] Instance cases : Cases := {|
  char_isupper c := Simple.is_upper c || (c =? hook)%N
|}.

End Upsilon.

(** * Properties *)

(** ** Numbers *)

Lemma foldl_add_ones {A} (l : list A) (a : Z) :
  foldl Z.add a (map (λ _, 1) l) = a + Z.of_nat (length l).
Proof.
  revert a. induction l as [|x l IH]; intros a; simpl.
  - lia.
  - rewrite IH. lia.
Qed.

Lemma py_sum_ones {A} (l : list A) :
  py_sum (map (λ _, 1) l) = Z.of_nat (length l).
Proof. unfold py_sum. rewrite foldl_add_ones. lia. Qed.

Lemma foldl_add_shift (l : list Z) (a : Z) :
  foldl Z.add a l = a + foldl Z.add 0 l.
Proof.
  revert a. induction l as [|x l IH]; intros a; simpl.
  - lia.
  - rewrite (IH (a + x)), (IH (0 + x)). lia.
Qed.

Lemma py_sum_cons (x : Z) (l : list Z) : py_sum (x :: l) = x + py_sum l.
Proof. unfold py_sum. simpl. apply foldl_add_shift. Qed.

Lemma truediv_positive (a b : Q) :
  (0 < b)%Q → truediv a b = Some (a / b)%Q.
Proof.
  intros Hb. unfold truediv.
  destruct (Qeq_bool b 0) eqn:E; [|reflexivity].
  apply Qeq_bool_iff in E. rewrite E in Hb. exfalso. revert Hb. apply Qlt_irrefl.
Qed.

Lemma inject_Z_nonneg (z : Z) : 0 ≤ z → (0 <= inject_Z z)%Q.
Proof. intros Hz. change 0%Q with (inject_Z 0). rewrite <- Zle_Qle. exact Hz. Qed.

Lemma plus_epsilon_positive (z : Z) : 0 ≤ z → (0 < inject_Z z + epsilon)%Q.
Proof.
  intros Hz. apply inject_Z_nonneg in Hz.
  assert (0 < epsilon)%Q by reflexivity. lra.
Qed.

(** ** Sentiment Scorer *)

Lemma count_hits_members words s : count_hits words s = members words s.
Proof. unfold count_hits, members. apply py_sum_ones. Qed.

Lemma members_bounds words s : 0 ≤ members words s ≤ len words.
Proof.
  unfold members, len. split; [lia|].
  apply inj_le, length_filter.
Qed.

Lemma sentiment_total words pos neg :
  calculate_sentiment_scores words pos neg =
  Some {| positive_score := members words pos;
          negative_score := members words neg;
          polarity_score :=
            (inject_Z (members words pos - members words neg)
             / (inject_Z (members words pos + members words neg) + epsilon))%Q;
          subjectivity_score :=
            (inject_Z (members words pos + members words neg)
             / (inject_Z (len words) + epsilon))%Q |}.
Proof.
  unfold calculate_sentiment_scores. rewrite !count_hits_members.
  pose proof (members_bounds words pos). pose proof (members_bounds words neg).
  rewrite !truediv_positive; [reflexivity| |].
  - apply plus_epsilon_positive. unfold len. lia.
  - apply plus_epsilon_positive. lia.
Qed.

Lemma ratio_in_unit_range (a b d : Q) :
  (- b <= a)%Q → (a <= b)%Q → (b <= d)%Q → (0 < d)%Q →
  (- (1) <= a / d)%Q ∧ (a / d <= 1)%Q.
Proof.
  intros Hlo Hhi Hbd Hd. split.
  - apply Qle_shift_div_l; [exact Hd|]. lra.
  - apply Qle_shift_div_r; [exact Hd|]. lra.
Qed.

(** The polarity score is in [-1, 1] whatever the word sets are. *)
Lemma polarity_in_range words pos neg r :
  calculate_sentiment_scores words pos neg = Some r →
  (- (1) <= polarity_score r)%Q ∧ (polarity_score r <= 1)%Q.
Proof.
  rewrite sentiment_total. intros [= <-]. simpl.
  pose proof (members_bounds words pos) as [Hp _].
  pose proof (members_bounds words neg) as [Hn _].
  apply ratio_in_unit_range
    with (b := inject_Z (members words pos + members words neg)).
  - rewrite <- inject_Z_opp, <- Zle_Qle. lia.
  - rewrite <- Zle_Qle. lia.
  - assert (0 < epsilon)%Q by reflexivity. lra.
  - apply plus_epsilon_positive. lia.
Qed.

Lemma members_disjoint (words : list str) (pos neg : gset str) :
  pos ## neg → members words pos + members words neg ≤ len words.
Proof.
  intros Hd. unfold members, len.
  induction words as [|w ws IH]; simpl; [lia|].
  rewrite !filter_cons.
  destruct (decide (w ∈ pos)) as [Hp|Hp], (decide (w ∈ neg)) as [Hn|Hn];
    simpl; try lia.
  exfalso. exact (Hd w Hp Hn).
Qed.

(** The subjectivity score is in [0, 1] when no word is both positive and
    negative. *)
Lemma subjectivity_in_range_disjoint (words : list str) (pos neg : gset str) r :
  pos ## neg →
  calculate_sentiment_scores words pos neg = Some r →
  (0 <= subjectivity_score r)%Q ∧ (subjectivity_score r <= 1)%Q.
Proof.
  intros Hd. rewrite sentiment_total. intros [= <-]. simpl.
  pose proof (members_bounds words pos) as [Hp _].
  pose proof (members_bounds words neg) as [Hn _].
  pose proof (members_disjoint words pos neg Hd) as Hle.
  assert (0 < inject_Z (len words) + epsilon)%Q as Hden
    by (apply plus_epsilon_positive; unfold len; lia).
  split.
  - apply Qle_shift_div_l; [exact Hden|].
    rewrite Qmult_0_l. apply inject_Z_nonneg. lia.
  - apply Qle_shift_div_r; [exact Hden|].
    rewrite Zle_Qle in Hle. assert (0 < epsilon)%Q by reflexivity. lra.
Qed.

(** ** Readability Scorer *)

Lemma inject_Z_positive (z : Z) : z > 0 → (0 < inject_Z z)%Q.
Proof. intros Hz. change 0%Q with (inject_Z 0). rewrite <- Zlt_Qlt. lia. Qed.

Lemma readability_total `{Tokenizer} (text : str) :
  ∃ a p : Q,
    calculate_readability_scores text =
    Some {| avg_sentence_length := a;
            percentage_complex_words := p;
            fog_index := ((4 # 10) * (a + p))%Q;
            complex_word_count := len (filter is_complex (word_tokenize text));
            word_count := len (word_tokenize text) |}.
Proof.
  unfold calculate_readability_scores.
  destruct (decide (len (sent_tokenize text) > 0)) as [Hs|Hs],
           (decide (len (word_tokenize text) > 0)) as [Hw|Hw];
    rewrite ?truediv_positive by (apply inject_Z_positive; assumption);
    simpl; eauto.
Qed.

(** ** Tokenizer/Cleaner *)

Lemma filter_agree {A} (P1 P2 : A → Prop)
    `{!∀ x, Decision (P1 x), !∀ x, Decision (P2 x)} (l : list A) :
  (∀ x, x ∈ l → P1 x ↔ P2 x) → filter P1 l = filter P2 l.
Proof.
  induction l as [|a l IH]; intros Hiff; [reflexivity|].
  assert (filter P1 l = filter P2 l) as Hl.
  { apply IH. intros x Hx. apply Hiff. now right. }
  rewrite !filter_cons, Hl.
  destruct (decide (P1 a)) as [H1|H1], (decide (P2 a)) as [H2|H2];
    try reflexivity; exfalso.
  - apply H2, (Hiff a); [left|exact H1].
  - apply H1, (Hiff a); [left|exact H2].
Qed.

Lemma filter_all {A} (P : A → Prop) `{!∀ x, Decision (P x)} (l : list A) :
  Forall P l → filter P l = l.
Proof.
  induction 1 as [|a l Ha _ IH]; [reflexivity|].
  rewrite filter_cons_True by exact Ha. now rewrite IH.
Qed.

Lemma sublist_into_filter {A} (P : A → Prop) `{!∀ x, Decision (P x)}
    (l1 l2 : list A) :
  l1 `sublist_of` l2 → Forall P l1 → l1 `sublist_of` filter P l2.
Proof.
  induction 1 as [|x l1 l2 _ IH|x l1 l2 _ IH]; intros HP.
  - constructor.
  - inversion HP; subst. rewrite filter_cons_True by assumption.
    apply sublist_skip. now apply IH.
  - rewrite filter_cons. destruct (decide (P x)).
    + apply sublist_cons. now apply IH.
    + now apply IH.
Qed.

Section Cleaner.
Context `{Unicode} `{Tokenizer}.

Lemma cleaned_all_kept (text : str) (stop_words : gset str) :
  Forall (keeps stop_words) (clean_and_tokenize text stop_words).
Proof.
  unfold clean_and_tokenize. apply Forall_forall. intros w Hw.
  apply list_elem_of_filter in Hw. tauto.
Qed.

Lemma cleaned_sublist (text : str) (stop_words : gset str) :
  clean_and_tokenize text stop_words
    `sublist_of` word_tokenize (str_lower text).
Proof. unfold clean_and_tokenize. apply sublist_filter. Qed.

(** Two stop-word sets that agree on the alphabetic tokens of the text clean
    it alike. *)
Lemma clean_agree (text : str) (sw1 sw2 : gset str) :
  (∀ word, word ∈ word_tokenize (str_lower text) → isalpha word = true →
           word ∈ sw1 ↔ word ∈ sw2) →
  clean_and_tokenize text sw1 = clean_and_tokenize text sw2.
Proof.
  intros Hagree. unfold clean_and_tokenize. apply filter_agree.
  intros w Hw. unfold keeps. split; intros [Ha Hn]; split; try exact Ha;
    intros Hin; apply Hn; now apply (Hagree w Hw Ha).
Qed.

(** C4. A token of the tokenized lower-cased text is in the output of
    [clean_and_tokenize] exactly when it is alphabetic and not a stop word;
    the output is a subsequence of the tokens, in their order, and it holds
    every subsequence of surviving tokens, so none is dropped or moved. *)
Theorem clean_and_tokenize_keeps (text : str) (stop_words : gset str) :
  (∀ word,
     word ∈ clean_and_tokenize text stop_words ↔
     word ∈ word_tokenize (str_lower text)
     ∧ isalpha word = true ∧ word ∉ stop_words)
  ∧ clean_and_tokenize text stop_words
      `sublist_of` word_tokenize (str_lower text)
  ∧ (∀ l : list str,
       l `sublist_of` word_tokenize (str_lower text) →
       Forall (λ word, isalpha word = true ∧ word ∉ stop_words) l →
       l `sublist_of` clean_and_tokenize text stop_words).
Proof.
  split; [|split].
  - intros w. unfold clean_and_tokenize. rewrite list_elem_of_filter.
    unfold keeps. tauto.
  - apply cleaned_sublist.
  - intros l Hsub Hall. unfold clean_and_tokenize.
    apply sublist_into_filter; assumption.
Qed.

(** C5. When the tokenizer keeps the case of words and tokenizes its own
    alphabetic tokens, joined by spaces, into themselves, cleaning the
    space-joined cleaned words again, with the same stop words, returns the
    cleaned words. *)
Theorem clean_idempotent :
  tokens_stay_lower → join_stays_lower → retokenizes →
  ∀ (text : str) (stop_words : gset str),
    clean_and_tokenize
      (join (py " ") (clean_and_tokenize text stop_words)) stop_words
    = clean_and_tokenize text stop_words.
Proof.
  intros Hlow Hjoin Hre text sw.
  pose proof (cleaned_all_kept text sw) as Hkept.
  pose proof (cleaned_sublist text sw) as Hsub.
  set (ws := clean_and_tokenize text sw) in *.
  assert (Forall (λ w, isalpha w = true) ws) as Halpha.
  { eapply Forall_impl; [exact Hkept|]. intros w [Ha _]. exact Ha. }
  assert (Forall (λ w, str_lower w = w) ws) as Hfix.
  { apply Forall_forall. intros w Hw. apply (Hlow text).
    - eapply elem_of_sublist; [exact Hw|exact Hsub].
    - rewrite Forall_forall in Halpha. now apply Halpha. }
  unfold clean_and_tokenize at 1.
  rewrite (Hjoin ws Hfix), (Hre (str_lower text) ws Hsub Halpha).
  apply filter_all. exact Hkept.
Qed.

(** C10, as amended. When the alphabetic tokens of a lower-cased text are
    lower-case, only the stop-word entries that lower-casing leaves
    unchanged take part in cleaning: an entry that lower-casing changes
    removes no token, and the entries that it changes can be dropped from
    the set. *)
Theorem stop_words_case_sensitive :
  tokens_stay_lower →
  ∀ (text : str) (stop_words : gset str),
    clean_and_tokenize text stop_words
    = clean_and_tokenize text
        (filter (λ entry, str_lower entry = entry) stop_words)
    ∧ (∀ entry : str,
         str_lower entry ≠ entry →
         clean_and_tokenize text ({[entry]} ∪ stop_words)
         = clean_and_tokenize text stop_words).
Proof.
  intros Hlow text sw. split.
  - apply clean_agree. intros w Hw Ha. rewrite elem_of_filter.
    pose proof (Hlow text w Hw Ha). tauto.
  - intros e He. apply clean_agree. intros w Hw Ha.
    rewrite elem_of_union, elem_of_singleton.
    pose proof (Hlow text w Hw Ha). split; [|tauto].
    intros [->|Hin]; [contradiction|exact Hin].
Qed.
End Cleaner.

(** ** The ASCII instance meets the assumptions *)

Lemma simple_lower_char_idem (c : char) :
  Simple.lower_char (Simple.lower_char c) = Simple.lower_char c.
Proof.
  unfold Simple.lower_char, Simple.is_upper.
  destruct (65 <=? c)%N eqn:E1, (c <=? 90)%N eqn:E2; simpl;
    rewrite ?E1, ?E2; simpl; try reflexivity.
  apply N.leb_le in E1.
  destruct (65 <=? c + 32)%N eqn:E3, (c + 32 <=? 90)%N eqn:E4; simpl;
    try reflexivity.
  apply N.leb_le in E4. lia.
Qed.

(** In ASCII, lower-casing changes a string exactly when it holds an
    upper-case letter. *)
Lemma simple_lower_changes (s : str) :
  @str_lower Simple.unicode s ≠ s ↔ Exists (λ c, Simple.is_upper c = true) s.
Proof.
  simpl. induction s as [|c s IH]; simpl.
  - split; [intros Hne; now contradiction Hne|]. intros Hex. inversion Hex.
  - rewrite Exists_cons, <- IH. unfold Simple.lower_char at 1.
    destruct (Simple.is_upper c) eqn:Hup.
    + split; [now left|]. intros _ [= Hc _].
      unfold Simple.is_upper in Hup. lia.
    + split.
      * intros Hne. right. intros Heq. apply Hne. now rewrite Heq.
      * intros [Hc|Hne]; [discriminate|]. intros [= Heq]. now apply Hne.
Qed.

Lemma simple_space_not_alpha (c : char) :
  @char_isalpha Simple.unicode c = true → Simple.is_space c = false.
Proof.
  simpl. unfold Simple.is_upper, Simple.is_lower, Simple.is_space.
  intros Ha.
  destruct (N.eqb_spec c 32) as [->|_]; [discriminate|].
  destruct (N.eqb_spec c 9) as [->|_]; [discriminate|].
  destruct (N.eqb_spec c 10) as [->|_]; [discriminate|].
  destruct (N.eqb_spec c 13) as [->|_]; [discriminate|].
  reflexivity.
Qed.

Lemma simple_alpha_word (w : str) :
  @isalpha Simple.unicode w = true →
  w ≠ [] ∧ Forall (λ c, Simple.is_space c = false) w.
Proof.
  unfold isalpha. destruct w as [|c w]; [discriminate|].
  intros Hall. split; [discriminate|].
  apply Forall_forall. intros x Hx. apply simple_space_not_alpha.
  rewrite forallb_forall in Hall. apply Hall. now apply list_elem_of_In.
Qed.

Lemma split_from_chars (cur s w : str) (c : char) :
  w ∈ Simple.split_from cur s → c ∈ w → c ∈ cur ++ s.
Proof.
  revert cur. induction s as [|x s IH]; intros cur Hw Hc; simpl in Hw.
  - destruct cur as [|y cur].
    + inversion Hw.
    + apply list_elem_of_singleton in Hw. subst w. now rewrite app_nil_r.
  - destruct (Simple.is_space x).
    + destruct cur as [|y cur].
      * apply (IH [] Hw) in Hc. simpl in *. now right.
      * apply elem_of_cons in Hw as [->|Hw].
        -- apply elem_of_app. now left.
        -- apply (IH [] Hw) in Hc. apply elem_of_app. right. now right.
    + apply (IH _ Hw) in Hc. now rewrite <- app_assoc in Hc.
Qed.

Lemma map_fixed {A} (f : A → A) (l : list A) :
  Forall (λ x, f x = x) l → map f l = l.
Proof. induction 1 as [|x l Hx _ IH]; simpl; congruence. Qed.

Lemma simple_tokens_stay_lower :
  @tokens_stay_lower Simple.unicode Simple.tokenizer.
Proof.
  intros text w Hw _. simpl in *. apply map_fixed, Forall_forall.
  intros c Hc. apply (split_from_chars [] _ w c Hw) in Hc. simpl in Hc.
  apply list_elem_of_fmap in Hc as [c' [-> _]].
  apply simple_lower_char_idem.
Qed.

Lemma map_join {f : char → char} (sep : str) (ws : list str) :
  map f (join sep ws) = join (map f sep) (map (map f) ws).
Proof.
  induction ws as [|w ws IH]; [reflexivity|].
  destruct ws as [|w' ws]; [reflexivity|].
  change (join sep (w :: w' :: ws)) with (w ++ sep ++ join sep (w' :: ws)).
  change (join (map f sep) (map (map f) (w :: w' :: ws)))
    with (map f w ++ map f sep ++ join (map f sep) (map (map f) (w' :: ws))).
  rewrite <- IH, !map_app. reflexivity.
Qed.

Lemma simple_join_stays_lower :
  @join_stays_lower Simple.unicode.
Proof.
  intros ws Hws. simpl in *. rewrite map_join.
  rewrite (map_fixed (map Simple.lower_char) ws Hws). reflexivity.
Qed.

Lemma split_from_word (cur w rest : str) :
  Forall (λ c, Simple.is_space c = false) w →
  Simple.split_from cur (w ++ rest) = Simple.split_from (cur ++ w) rest.
Proof.
  intros Hw. revert cur. induction Hw as [|c w Hc _ IH]; intros cur; simpl.
  - now rewrite app_nil_r.
  - rewrite Hc, IH, <- app_assoc. reflexivity.
Qed.

Lemma split_from_space (cur rest : str) :
  cur ≠ [] →
  Simple.split_from cur (32%N :: rest) = cur :: Simple.split_from [] rest.
Proof. intros Hne. destruct cur; [contradiction|reflexivity]. Qed.

Lemma split_join_words (ws : list str) :
  Forall (λ w, w ≠ [] ∧ Forall (λ c, Simple.is_space c = false) w) ws →
  Simple.split (join (py " ") ws) = ws.
Proof.
  unfold Simple.split.
  induction 1 as [|w ws [Hne Hw] Hws IH]; [reflexivity|].
  destruct ws as [|w' ws].
  - simpl. rewrite <- (app_nil_r w) at 1. rewrite split_from_word by exact Hw.
    simpl. destruct w; [contradiction|reflexivity].
  - change (join (py " ") (w :: w' :: ws))
      with (w ++ 32%N :: join (py " ") (w' :: ws)).
    rewrite split_from_word by exact Hw.
    rewrite app_nil_l, split_from_space by exact Hne. now rewrite IH.
Qed.

Lemma simple_retokenizes :
  @retokenizes Simple.unicode Simple.tokenizer.
Proof.
  intros text ws _ Hall. simpl. apply split_join_words.
  eapply Forall_impl; [exact Hall|]. intros w. apply simple_alpha_word.
Qed.

(** ** Lexical Stats Scorer *)

Lemma pronouns_nonempty (lit : str) : lit ∈ pronouns → lit ≠ [].
Proof.
  intros Hin ->. vm_compute in Hin.
  repeat (apply elem_of_cons in Hin as [Hin|Hin]; [discriminate|]).
  inversion Hin.
Qed.

Section RegexFacts.
Context `{Unicode}.

Lemma match_literal_split (lit s m rest : str) :
  match_literal lit s = Some (m, rest) →
  s = m ++ rest ∧ length m = length lit
  ∧ Forall2 (λ p c, re_ignorecase p c = true) lit m.
Proof.
  revert s m rest. induction lit as [|p lit IH]; intros s m rest; simpl.
  - intros [= <- <-]. repeat split. constructor.
  - destruct s as [|c s]; [discriminate|].
    destruct (re_ignorecase p c) eqn:Hpc; [|discriminate].
    destruct (match_literal lit s) as [[m' rest']|] eqn:Hm; [|discriminate].
    intros [= <- <-]. destruct (IH _ _ _ Hm) as (-> & Hlen & Hall).
    repeat split; simpl; [congruence|]. now constructor.
Qed.

Lemma match_alternatives_some (alts : list str) prev (s m rest : str) :
  match_alternatives alts prev s = Some (m, rest) →
  ∃ lit, lit ∈ alts ∧ match_literal lit s = Some (m, rest)
         ∧ word_boundary (before_end prev m) (head rest) = true.
Proof.
  induction alts as [|alt alts IH]; simpl; [discriminate|].
  destruct (match_literal alt s) as [[m' rest']|] eqn:Hm.
  - destruct (word_boundary (before_end prev m') (head rest')) eqn:Hb.
    + intros [= <- <-]. exists alt. repeat split; [left|exact Hm|exact Hb].
    + intros Hrec. destruct (IH Hrec) as (lit & Hin & Hlit).
      exists lit. split; [now right|exact Hlit].
  - intros Hrec. destruct (IH Hrec) as (lit & Hin & Hlit).
    exists lit. split; [now right|exact Hlit].
Qed.

Lemma match_alternatives_none (alts : list str) prev (s : str) :
  match_alternatives alts prev s = None →
  ∀ lit m rest, lit ∈ alts → match_literal lit s = Some (m, rest) →
                word_boundary (before_end prev m) (head rest) = false.
Proof.
  induction alts as [|alt alts IH]; simpl; intros Hnone lit m rest Hin Hm.
  - inversion Hin.
  - apply elem_of_cons in Hin as [->|Hin].
    + rewrite Hm in Hnone.
      destruct (word_boundary (before_end prev m) (head rest));
        [discriminate|reflexivity].
    + destruct (match_literal alt s) as [[m' rest']|].
      * destruct (word_boundary (before_end prev m') (head rest'));
          [discriminate|]. now apply (IH Hnone lit).
      * now apply (IH Hnone lit).
Qed.

(** A match of the pattern is a non-empty prefix of the text. *)
Lemma match_here_prefix prev (s m rest : str) :
  match_here prev s = Some (m, rest) → s = m ++ rest ∧ m ≠ [].
Proof.
  unfold match_here. destruct (word_boundary prev (head s)); [|discriminate].
  intros Hm. apply match_alternatives_some in Hm as (lit & Hin & Hm & _).
  apply match_literal_split in Hm as (-> & Hlen & _). split; [reflexivity|].
  intros ->. apply (pronouns_nonempty lit Hin).
  destruct lit; [reflexivity|discriminate].
Qed.

(** More steps than the text has characters change nothing: the scan has
    stopped before it runs out of them. *)
Lemma findall_from_enough (fuel1 fuel2 : nat) prev (s : str) :
  (length s < fuel1)%nat → (length s < fuel2)%nat →
  findall_from fuel1 prev s = findall_from fuel2 prev s.
Proof.
  revert fuel2 prev s.
  induction fuel1 as [|fuel1 IH]; intros fuel2 prev s H1 H2; [lia|].
  destruct fuel2 as [|fuel2]; [lia|]. simpl.
  destruct (match_here prev s) as [[m rest]|] eqn:Hm.
  - apply match_here_prefix in Hm as [-> Hne]. f_equal.
    rewrite length_app in H1, H2.
    assert (length m ≠ 0)%nat by (destruct m; [contradiction|discriminate]).
    apply IH; lia.
  - destruct s as [|c s]; [reflexivity|]. simpl in H1, H2. apply IH; lia.
Qed.
End RegexFacts.

Section PronounCount.
Context `{Unicode}.
Hypothesis letters_are_words : pattern_letters_are_words.

Lemma before_end_cons prev (x : char) (m : str) :
  before_end prev (x :: m) = before_end (Some x) m.
Proof. unfold before_end. rewrite last_cons. now destruct (last m). Qed.

Lemma before_end_word prev (m : str) :
  m ≠ [] → Forall (λ c, re_word c = true) m →
  side_is_word (before_end prev m) = true.
Proof.
  intros Hne Hall. unfold before_end.
  destruct (last m) as [x|] eqn:Hlast.
  - apply last_Some_elem_of in Hlast. rewrite Forall_forall in Hall.
    now apply Hall.
  - apply last_None in Hlast. contradiction.
Qed.

(** What a pronoun of the pattern matches is a non-empty run of word
    characters. *)
Lemma matched_is_word (lit s m rest : str) :
  lit ∈ pronouns → match_literal lit s = Some (m, rest) →
  m ≠ [] ∧ Forall (λ c, re_word c = true) m.
Proof.
  intros Hin Hm. apply match_literal_split in Hm as (_ & Hlen & Hall).
  split.
  - intros ->. apply (pronouns_nonempty lit Hin).
    destruct lit; [reflexivity|discriminate].
  - assert (∀ p, p ∈ lit → ∀ c, re_ignorecase p c = true → re_word c = true)
      as Hlit by (intros p Hp c; now apply (letters_are_words lit)).
    clear Hin Hlen. induction Hall as [|p c lit m Hpc _ IH]; constructor.
    + apply (Hlit p); [left|exact Hpc].
    + apply IH. intros q Hq. apply Hlit. now right.
Qed.

Lemma xorb_true_word (a : bool) : xorb a true = true → a = false.
Proof. now destruct a. Qed.

Lemma word_xorb_true (b : bool) : xorb true b = true → b = false.
Proof. now destruct b. Qed.

Lemma starts_whole_word_intro prev (s lit m rest : str) :
  lit ∈ pronouns → match_literal lit s = Some (m, rest) →
  side_is_word prev = false → side_is_word (head rest) = false →
  starts_whole_word prev s = true.
Proof.
  intros Hin Hm Hp Hn. unfold starts_whole_word. apply existsb_exists.
  exists lit. split; [now apply list_elem_of_In|].
  now rewrite Hm, Hp, Hn.
Qed.

Lemma starts_whole_word_elim prev (s : str) :
  starts_whole_word prev s = true →
  ∃ lit m rest, lit ∈ pronouns ∧ match_literal lit s = Some (m, rest)
                ∧ side_is_word prev = false
                ∧ side_is_word (head rest) = false.
Proof.
  unfold starts_whole_word. intros Hex.
  apply existsb_exists in Hex as (lit & Hin & Hlit).
  destruct (match_literal lit s) as [[m rest]|] eqn:Hm; [|discriminate].
  apply andb_true_iff in Hlit as [Hp Hn].
  apply negb_true_iff in Hp, Hn.
  exists lit, m, rest.
  split; [now apply list_elem_of_In|]. repeat split; assumption || reflexivity.
Qed.

(** The pattern matches at a position exactly when a pronoun occurs there as
    a whole word. *)
Lemma match_here_some prev (s m rest : str) :
  match_here prev s = Some (m, rest) → starts_whole_word prev s = true.
Proof.
  unfold match_here.
  destruct (word_boundary prev (head s)) eqn:Hb; [|discriminate].
  intros Hm. apply match_alternatives_some in Hm as (lit & Hin & Hm & Hb').
  destruct (matched_is_word _ _ _ _ Hin Hm) as [Hne Hall].
  pose proof (match_literal_split _ _ _ _ Hm) as (-> & _ & _).
  apply (starts_whole_word_intro prev _ lit m rest Hin Hm).
  - destruct m as [|c m]; [contradiction|]. simpl in Hb.
    inversion Hall; subst. unfold word_boundary in Hb. simpl in Hb.
    apply xorb_true_word. congruence.
  - unfold word_boundary in Hb'.
    rewrite (before_end_word prev m Hne Hall) in Hb'.
    now apply word_xorb_true.
Qed.

Lemma match_here_none prev (s : str) :
  match_here prev s = None → starts_whole_word prev s = false.
Proof.
  intros Hnone. destruct (starts_whole_word prev s) eqn:Hst; [|reflexivity].
  apply starts_whole_word_elim in Hst as (lit & m & rest & Hin & Hm & Hp & Hn).
  destruct (matched_is_word _ _ _ _ Hin Hm) as [Hne Hall].
  pose proof (match_literal_split _ _ _ _ Hm) as (Hs & _ & _).
  unfold match_here in Hnone.
  assert (word_boundary prev (head s) = true) as Hb.
  { subst s. destruct m as [|c m]; [contradiction|]. inversion Hall; subst.
    unfold word_boundary. simpl. rewrite Hp. simpl. assumption. }
  rewrite Hb in Hnone.
  pose proof (match_alternatives_none _ _ _ Hnone lit m rest Hin Hm) as Hb'.
  unfold word_boundary in Hb'.
  rewrite (before_end_word prev m Hne Hall), Hn in Hb'. discriminate.
Qed.

Lemma starts_after_word (c : char) (s : str) :
  re_word c = true → starts_whole_word (Some c) s = false.
Proof.
  intros Hc. destruct (starts_whole_word (Some c) s) eqn:Hst; [|reflexivity].
  apply starts_whole_word_elim in Hst as (_ & _ & _ & _ & _ & Hp & _).
  simpl in Hp. congruence.
Qed.

(** No whole word starts inside a run of word characters. *)
Lemma count_skip_word (c : char) (m rest : str) :
  re_word c = true → Forall (λ x, re_word x = true) m →
  count_whole_words (Some c) (m ++ rest)
  = count_whole_words (before_end (Some c) m) rest.
Proof.
  intros Hc Hall. revert c Hc.
  induction Hall as [|x m Hx _ IH]; intros c Hc; [reflexivity|].
  rewrite before_end_cons, <- (IH x Hx). simpl.
  now rewrite (starts_after_word c _ Hc).
Qed.

Lemma findall_counts (fuel : nat) prev (s : str) :
  (length s < fuel)%nat →
  length (findall_from fuel prev s) = count_whole_words prev s.
Proof.
  revert prev s. induction fuel as [|fuel IH]; intros prev s Hlen; [lia|].
  simpl. destruct (match_here prev s) as [[m rest]|] eqn:Hm.
  - pose proof (match_here_some _ _ _ _ Hm) as Hst.
    unfold match_here in Hm.
    destruct (word_boundary prev (head s)); [|discriminate].
    apply match_alternatives_some in Hm as (lit & Hin & Hm & _).
    destruct (matched_is_word _ _ _ _ Hin Hm) as [Hne Hall].
    apply match_literal_split in Hm as (-> & _ & _).
    destruct m as [|c m]; [contradiction|].
    inversion Hall as [|? ? Hc Hall']; subst.
    simpl. rewrite IH by (simpl in Hlen; rewrite length_app in Hlen; lia).
    simpl in Hst. rewrite Hst, before_end_cons.
    simpl. f_equal. symmetry. now apply count_skip_word.
  - apply match_here_none in Hm. destruct s as [|c s].
    + reflexivity.
    + change (count_whole_words prev (c :: s))
        with ((if starts_whole_word prev (c :: s) then 1 else 0)
              + count_whole_words (Some c) s)%nat.
      rewrite Hm. apply IH. simpl in Hlen. lia.
Qed.
End PronounCount.

Lemma existsb_pointwise {A} (f g : A → bool) (l : list A) :
  (∀ x, f x = g x) → existsb f l = existsb g l.
Proof. intros Hfg. induction l as [|x l IH]; simpl; congruence. Qed.

Section Occurrences.
Context `{Unicode}.

Lemma match_literal_decide (lit s : str) :
  match_literal lit s =
  if same_ignoring_case lit (take (length lit) s)
  then Some (take (length lit) s, drop (length lit) s)
  else None.
Proof.
  revert s. induction lit as [|p lit IH]; intros s; [reflexivity|].
  destruct s as [|c s]; [reflexivity|]. simpl.
  destruct (re_ignorecase p c); [|reflexivity]. simpl. rewrite IH.
  now destruct (same_ignoring_case lit (take (length lit) s)).
Qed.

Lemma char_before_app (pre s : str) :
  char_before (pre ++ s) (length pre) = last pre.
Proof.
  destruct pre as [|a pre]; [reflexivity|].
  rewrite last_lookup. simpl length. simpl char_before.
  change (a :: pre ++ s) with ((a :: pre) ++ s).
  apply lookup_app_l. simpl. lia.
Qed.

Lemma char_after_app (pre s : str) (n : nat) :
  (pre ++ s) !! (length pre + n)%nat = head (drop n s).
Proof.
  rewrite lookup_app_r by lia. rewrite head_lookup, lookup_drop.
  f_equal. lia.
Qed.

Lemma whole_word_at_suffix (pre s lit : str) :
  whole_word_at (pre ++ s) (length pre) lit =
  match match_literal lit s with
  | Some (_, rest) =>
      negb (side_is_word (last pre)) && negb (side_is_word (head rest))
  | None => false
  end.
Proof.
  unfold whole_word_at.
  rewrite drop_app_length, char_before_app, char_after_app.
  rewrite match_literal_decide.
  now destruct (same_ignoring_case lit (take (length lit) s)).
Qed.

Lemma occurrences_from (pre s : str) :
  length (filter (λ i, existsb (whole_word_at (pre ++ s) i) pronouns = true)
                 (seq (length pre) (length s)))
  = count_whole_words (last pre) s.
Proof.
  revert pre. induction s as [|c s IH]; intros pre; [reflexivity|].
  change (count_whole_words (last pre) (c :: s))
    with ((if starts_whole_word (last pre) (c :: s) then 1 else 0)
          + count_whole_words (Some c) s)%nat.
  assert (existsb (whole_word_at (pre ++ c :: s) (length pre)) pronouns
          = starts_whole_word (last pre) (c :: s)) as Hhead.
  { unfold starts_whole_word. apply existsb_pointwise. intros lit.
    apply whole_word_at_suffix. }
  specialize (IH (pre ++ [c])).
  rewrite <- app_assoc, length_app, last_snoc in IH. simpl in IH.
  rewrite Nat.add_1_r in IH.
  simpl seq. rewrite filter_cons, Hhead.
  destruct (decide (starts_whole_word (last pre) (c :: s) = true)) as [->|Hn].
  - simpl. now rewrite IH.
  - apply not_true_is_false in Hn. rewrite Hn. simpl. exact IH.
Qed.

Lemma occurrences_count (text : str) :
  whole_word_occurrences text = Z.of_nat (count_whole_words None text).
Proof.
  unfold whole_word_occurrences, len. f_equal.
  apply (occurrences_from [] text).
Qed.

Lemma additional_total (words : list str) :
  ∃ a b : Q,
    calculate_additional_scores words =
    Some {| syllable_count :=
              py_sum (map (λ word, len (findall_class (py "aeiou") word))
                          words);
            personal_pronouns := len (findall_pronouns (join (py " ") words));
            avg_word_length := a;
            avg_syllables_per_word := b |}.
Proof.
  unfold calculate_additional_scores. destruct words as [|w ws].
  - simpl. eauto.
  - assert (0 < inject_Z (len (w :: ws)))%Q as Hpos
      by (apply inject_Z_positive; unfold len; simpl length; lia).
    rewrite !(truediv_positive _ _ Hpos). simpl. eauto.
Qed.
End Occurrences.

Lemma char_in_elem_of (c : char) (s : str) : char_in c s = true ↔ c ∈ s.
Proof.
  unfold char_in. rewrite existsb_exists. split.
  - intros (x & Hx & Heq). apply N.eqb_eq in Heq. subst x.
    now apply list_elem_of_In.
  - intros Hc. exists c. split; [now apply list_elem_of_In|apply N.eqb_refl].
Qed.

Lemma syllables_vowel_occurrences (words : list str) :
  py_sum (map (λ word, len (findall_class (py "aeiou") word)) words)
  = vowel_occurrences words.
Proof.
  induction words as [|w ws IH]; [reflexivity|].
  simpl map. rewrite py_sum_cons, IH. simpl vowel_occurrences. f_equal.
  unfold len, findall_class. rewrite length_map. do 2 f_equal.
  apply list_filter_iff. intros c. apply char_in_elem_of.
Qed.

Lemma simple_letter_match (p c : char) :
  Simple.is_upper p || Simple.is_lower p = true →
  Simple.lower_char p = Simple.lower_char c →
  Simple.is_upper c || Simple.is_lower c = true.
Proof.
  unfold Simple.lower_char, Simple.is_upper, Simple.is_lower.
  repeat match goal with
         | |- context [(?a <=? ?b)%N] => destruct (N.leb_spec a b)
         end; simpl; intros; try reflexivity; try discriminate; lia.
Qed.

Lemma simple_letters_are_words : @pattern_letters_are_words Simple.unicode.
Proof.
  intros lit p c Hlit Hp Hpc. simpl in *.
  apply N.eqb_eq in Hpc.
  assert (Simple.is_upper p || Simple.is_lower p = true) as Hletter.
  { vm_compute in Hlit.
    repeat (apply elem_of_cons in Hlit as [->|Hlit];
            [repeat (apply elem_of_cons in Hp as [->|Hp]; [reflexivity|]);
             inversion Hp|]).
    inversion Hlit. }
  rewrite (simple_letter_match p c Hletter Hpc). reflexivity.
Qed.

(** * Main results *)

(** C1 (evaluation at the failing input). With the word "good" in both the
    positive and the negative set, the one-word list ["good"] is scored
    positive once and negative once, and its subjectivity score is
    2 / (1 + 0.000001), which is above 1. *)
Theorem subjectivity_above_one_on_overlap :
  ∃ r,
    calculate_sentiment_scores [py "good"] {[py "good"]} {[py "good"]} = Some r
    ∧ positive_score r = 1 ∧ negative_score r = 1
    ∧ (subjectivity_score r == 2000000 # 1000001)%Q
    ∧ (1 < subjectivity_score r)%Q.
Proof.
  eexists. split; [vm_compute; reflexivity|]. simpl.
  repeat split; reflexivity.
Qed.

(** C2 (evaluation at the failing input). The word "Area" has three vowel
    characters, A, e and a, but the readability scorer counts the lower-case
    ones only and does not classify it as complex: on the text "Area" it
    reports one word and no complex word. *)
Theorem uppercase_vowels_not_counted :
  vowels_any_case (py "Area") = 3
  ∧ vowel_chars (py "Area") = 2
  ∧ ¬ is_complex (py "Area")
  ∧ (∃ r,
       @calculate_readability_scores Simple.tokenizer (py "Area") = Some r
       ∧ complex_word_count r = 0 ∧ word_count r = 1)
  ∧ (∀ (T : Tokenizer) (text : str),
       word_tokenize text = [py "Area"] →
       ∃ r,
         calculate_readability_scores text = Some r
         ∧ complex_word_count r = 0 ∧ word_count r = 1).
Proof.
  assert (¬ is_complex (py "Area")) as Hnot.
  { unfold is_complex. vm_compute. intros H. discriminate H. }
  repeat split.
  - exact Hnot.
  - eexists. split; [vm_compute; reflexivity|]. split; reflexivity.
  - intros T text Hw. destruct (readability_total text) as (a & p & Hr).
    eexists. split; [exact Hr|]. simpl. rewrite Hw.
    rewrite filter_cons_False by exact Hnot. split; reflexivity.
Qed.

(** C3. The sentiment scorer never fails, and it returns: as positive and
    negative score the number of tokens of the list that are members of the
    positive and of the negative set; as polarity
    (pos - neg) / (pos + neg + 0.000001); as subjectivity
    (pos + neg) / (length of the list + 0.000001). *)
Theorem sentiment_scores_formulas
    (words : list str) (positive_words negative_words : gset str) :
  ∃ r,
    calculate_sentiment_scores words positive_words negative_words = Some r
    ∧ positive_score r
      = Z.of_nat (length (filter (λ word, word ∈ positive_words) words))
    ∧ negative_score r
      = Z.of_nat (length (filter (λ word, word ∈ negative_words) words))
    ∧ polarity_score r
      = (inject_Z (positive_score r - negative_score r)
         / (inject_Z (positive_score r + negative_score r) + (1 # 1000000)))%Q
    ∧ subjectivity_score r
      = (inject_Z (positive_score r + negative_score r)
         / (inject_Z (Z.of_nat (length words)) + (1 # 1000000)))%Q.
Proof.
  eexists. split; [apply sentiment_total|]. simpl. repeat split.
Qed.

(** C9. For every input the sentiment scorer returns a positive and a
    negative score between 0 and the length of the word list, and the
    readability scorer returns a complex-word count between 0 and the word
    count. *)
Theorem count_bounds `{Tokenizer}
    (words : list str) (positive_words negative_words : gset str)
    (text : str) :
  (∃ r,
     calculate_sentiment_scores words positive_words negative_words = Some r
     ∧ 0 ≤ positive_score r ≤ Z.of_nat (length words)
     ∧ 0 ≤ negative_score r ≤ Z.of_nat (length words))
  ∧ (∃ r,
       calculate_readability_scores text = Some r
       ∧ 0 ≤ complex_word_count r ≤ word_count r
       ∧ 0 ≤ word_count r).
Proof.
  split.
  - eexists. split; [apply sentiment_total|]. simpl.
    split; apply members_bounds.
  - destruct (readability_total text) as (a & p & Hr).
    eexists. split; [exact Hr|]. simpl. unfold len.
    pose proof (length_filter is_complex (word_tokenize text)). lia.
Qed.

(** C7, as amended. The syllable count is the number of occurrences of the
    characters a, e, i, o, u in all the words of the list, every occurrence
    counted; the single word "beautiful" has five (e, a, u, i, u). *)
Theorem syllable_count_all_vowels `{Unicode} (words : list str) :
  (∃ r,
     calculate_additional_scores words = Some r
     ∧ syllable_count r = vowel_occurrences words)
  ∧ (∃ r,
       calculate_additional_scores [py "beautiful"] = Some r
       ∧ syllable_count r = 5).
Proof.
  split.
  - destruct (additional_total words) as (a & b & Hr).
    eexists. split; [exact Hr|]. simpl. apply syllables_vowel_occurrences.
  - destruct (additional_total [py "beautiful"]) as (a & b & Hr).
    eexists. split; [exact Hr|]. reflexivity.
Qed.

(** C7, as stated, fails: on the single word "beautiful" the syllable count
    is 5 and not 4. *)
Lemma beautiful_syllables_not_four :
  ∃ r,
    @calculate_additional_scores Simple.unicode [py "beautiful"] = Some r
    ∧ syllable_count r = 5 ∧ syllable_count r ≠ 4.
Proof.
  eexists. split; [vm_compute; reflexivity|]. simpl. split; [reflexivity|lia].
Qed.

(** C6. When the letters of the pattern match word characters only, the
    personal-pronoun count is the number of positions of the space-joined
    words at which I, we, my, ours or us occurs, up to case, with no word
    character just before and none just after the occurrence. *)
Theorem personal_pronouns_whole_words `{Unicode} :
  pattern_letters_are_words →
  ∀ words : list str,
    ∃ r,
      calculate_additional_scores words = Some r
      ∧ personal_pronouns r = whole_word_occurrences (join (py " ") words).
Proof.
  intros Hword words. destruct (additional_total words) as (a & b & Hr).
  eexists. split; [exact Hr|]. simpl.
  rewrite occurrences_count. unfold len, findall_pronouns. f_equal.
  apply (findall_counts Hword). lia.
Qed.

Lemma personal_pronouns_whole_words_witness :
  ∃ r,
    @calculate_additional_scores Simple.unicode
      (map py ["i"; "love"; "us"; "and"; "myself"]) = Some r
    ∧ personal_pronouns r
      = @whole_word_occurrences Simple.unicode
          (join (py " ") (map py ["i"; "love"; "us"; "and"; "myself"])).
Proof.
  exact (@personal_pronouns_whole_words Simple.unicode
           simple_letters_are_words
           (map py ["i"; "love"; "us"; "and"; "myself"])).
Defined.

(** The specification's example: "i" and "us" are counted, "my" inside
    "myself" is not. *)
Example pronouns_in_example :
  ∃ r,
    @calculate_additional_scores Simple.unicode
      (map py ["i"; "love"; "us"; "and"; "myself"]) = Some r
    ∧ personal_pronouns r = 2
    ∧ @findall_pronouns Simple.unicode (py "myself") = [].
Proof.
  eexists. split; [vm_compute; reflexivity|]. split; reflexivity.
Qed.

(** C8. On a text with no sentence and no word the readability scorer
    returns, without a division error, an average sentence length, a
    percentage of complex words and a fog index equal to 0, and 0 as complex
    word count and word count; on the empty word list the lexical-stats
    scorer returns 0 as average word length and as average number of
    syllables per word. *)
Theorem empty_input_zero `{Unicode} `{Tokenizer} (text : str) :
  sent_tokenize text = [] → word_tokenize text = [] →
  (∃ r,
     calculate_readability_scores text = Some r
     ∧ (avg_sentence_length r == 0)%Q
     ∧ (percentage_complex_words r == 0)%Q
     ∧ (fog_index r == 0)%Q
     ∧ complex_word_count r = 0
     ∧ word_count r = 0)
  ∧ (∃ r,
       calculate_additional_scores [] = Some r
       ∧ (avg_word_length r == 0)%Q
       ∧ (avg_syllables_per_word r == 0)%Q).
Proof.
  intros Hs Hw. split.
  - unfold calculate_readability_scores. rewrite Hs, Hw. simpl.
    eexists. split; [reflexivity|]. simpl. repeat split; reflexivity.
  - eexists. split; [reflexivity|]. simpl. split; reflexivity.
Qed.

Lemma empty_input_zero_witness :
  (∃ r,
     @calculate_readability_scores Simple.tokenizer (py "") = Some r
     ∧ (avg_sentence_length r == 0)%Q
     ∧ (percentage_complex_words r == 0)%Q
     ∧ (fog_index r == 0)%Q
     ∧ complex_word_count r = 0
     ∧ word_count r = 0)
  ∧ (∃ r,
       @calculate_additional_scores Simple.unicode [] = Some r
       ∧ (avg_word_length r == 0)%Q
       ∧ (avg_syllables_per_word r == 0)%Q).
Proof.
  exact (@empty_input_zero Simple.unicode Simple.tokenizer (py "")
           eq_refl eq_refl).
Defined.

Lemma clean_idempotent_witness :
  @clean_and_tokenize Simple.unicode Simple.tokenizer
    (join (py " ")
       (@clean_and_tokenize Simple.unicode Simple.tokenizer
          (py "The Cat sat on the mat 42") {[py "the"; py "on"]}))
    {[py "the"; py "on"]}
  = @clean_and_tokenize Simple.unicode Simple.tokenizer
      (py "The Cat sat on the mat 42") {[py "the"; py "on"]}.
Proof.
  exact (@clean_idempotent Simple.unicode Simple.tokenizer
           simple_tokens_stay_lower simple_join_stays_lower
           simple_retokenizes
           (py "The Cat sat on the mat 42") {[py "the"; py "on"]}).
Defined.

Lemma stop_words_case_sensitive_witness :
  @clean_and_tokenize Simple.unicode Simple.tokenizer
    (py "The cat and THE dog") {[py "The"; py "and"]}
  = @clean_and_tokenize Simple.unicode Simple.tokenizer
      (py "The cat and THE dog")
      (filter (λ entry, @str_lower Simple.unicode entry = entry)
              {[py "The"; py "and"]})
  ∧ (∀ entry : str,
       @str_lower Simple.unicode entry ≠ entry →
       @clean_and_tokenize Simple.unicode Simple.tokenizer
         (py "The cat and THE dog") ({[entry]} ∪ {[py "The"; py "and"]})
       = @clean_and_tokenize Simple.unicode Simple.tokenizer
           (py "The cat and THE dog") {[py "The"; py "and"]}).
Proof.
  exact (@stop_words_case_sensitive Simple.unicode Simple.tokenizer
           simple_tokens_stay_lower
           (py "The cat and THE dog") {[py "The"; py "and"]}).
Defined.

(** On that text the entry "The" removes nothing: "the" stays, twice. *)
Example upper_case_entry_removes_nothing :
  @clean_and_tokenize Simple.unicode Simple.tokenizer
    (py "The cat and THE dog") {[py "The"; py "and"]}
  = map py ["the"; "cat"; "the"; "dog"].
Proof. vm_compute. reflexivity. Qed.

(** C10, as worded, fails. The one-letter stop word U+03D2 holds an
    upper-case letter, and lower-casing leaves it and the text as they are:
    the entry removes the token of the text that consists of this letter,
    and cleaning with the stop words that hold no upper-case letter gives
    another result than cleaning with all of them. *)
Lemma upper_case_entry_removes_token :
  @has_upper Upsilon.cases [Upsilon.hook] = true
  ∧ @str_lower Upsilon.unicode [Upsilon.hook] = [Upsilon.hook]
  ∧ @clean_and_tokenize Upsilon.unicode Simple.tokenizer
      [Upsilon.hook] ∅ = [[Upsilon.hook]]
  ∧ @clean_and_tokenize Upsilon.unicode Simple.tokenizer
      [Upsilon.hook] ({[ [Upsilon.hook] ]} ∪ ∅) = []
  ∧ @clean_and_tokenize Upsilon.unicode Simple.tokenizer
      [Upsilon.hook] {[ [Upsilon.hook] ]}
    ≠ @clean_and_tokenize Upsilon.unicode Simple.tokenizer
        [Upsilon.hook]
        (@without_upper Upsilon.cases {[ [Upsilon.hook] ]})
  ∧ ¬ (∀ (text : str) (stop_words : gset str),
         @clean_and_tokenize Upsilon.unicode Simple.tokenizer text stop_words
         = @clean_and_tokenize Upsilon.unicode Simple.tokenizer text
             (@without_upper Upsilon.cases stop_words)).
Proof.
  assert (@clean_and_tokenize Upsilon.unicode Simple.tokenizer
            [Upsilon.hook] {[ [Upsilon.hook] ]}
          ≠ @clean_and_tokenize Upsilon.unicode Simple.tokenizer
              [Upsilon.hook]
              (@without_upper Upsilon.cases {[ [Upsilon.hook] ]})) as Hne.
  { vm_compute. discriminate. }
  repeat split; try (vm_compute; reflexivity); [exact Hne|].
  intros Hall. apply Hne. apply Hall.
Qed.

(** The specification's example for the sentiment scorer: two positive
    tokens and one negative token among three. *)
Example sentiment_in_example :
  ∃ r,
    calculate_sentiment_scores (map py ["good"; "good"; "bad"])
      {[py "good"]} {[py "bad"]} = Some r
    ∧ positive_score r = 2 ∧ negative_score r = 1
    ∧ (polarity_score r == 1000000 # 3000001)%Q
    ∧ (subjectivity_score r == 3000000 # 3000001)%Q.
Proof.
  eexists. split; [vm_compute; reflexivity|]. simpl. repeat split; reflexivity.
Qed.

(** * Further properties of the scorers *)

(** ** Sentiment Scorer *)

Lemma members_permutation (words words' : list str) (s : gset str) :
  words ≡ₚ words' → members words s = members words' s.
Proof. intros Hp. unfold members. now rewrite Hp. Qed.

Lemma members_none (words : list str) (s : gset str) :
  (∀ word, word ∈ words → word ∉ s) → members words s = 0.
Proof.
  intros Hno. unfold members.
  induction words as [|w ws IH]; [reflexivity|].
  rewrite filter_cons_False by (apply Hno; left).
  apply IH. intros x Hx. apply Hno. now right.
Qed.

Lemma members_app (words1 words2 : list str) (s : gset str) :
  members (words1 ++ words2) s = members words1 s + members words2 s.
Proof. unfold members. rewrite filter_app, length_app. lia. Qed.

(** X1. The polarity score lies between -1 and 1, both ends allowed, on
    every input, whether the two word sets overlap or not; the scorer does
    not fail. *)
Theorem polarity_within_bounds
    (words : list str) (positive_words negative_words : gset str) :
  ∃ r,
    calculate_sentiment_scores words positive_words negative_words = Some r
    ∧ (- (1) <= polarity_score r)%Q ∧ (polarity_score r <= 1)%Q.
Proof.
  eexists. split; [apply sentiment_total|]. simpl.
  pose proof (members_bounds words positive_words) as [Hp _].
  pose proof (members_bounds words negative_words) as [Hn _].
  set (p := members words positive_words) in *.
  set (n := members words negative_words) in *.
  assert (0 < epsilon)%Q as Heps by reflexivity.
  apply ratio_in_unit_range with (b := inject_Z (p + n)).
  - rewrite <- inject_Z_opp, <- Zle_Qle. lia.
  - rewrite <- Zle_Qle. lia.
  - lra.
  - apply plus_epsilon_positive. lia.
Qed.

(** X2. When no word is both positive and negative, the subjectivity score
    lies between 0 and 1, both ends allowed. *)
Theorem subjectivity_at_most_one_disjoint
    (words : list str) (positive_words negative_words : gset str) :
  positive_words ## negative_words →
  ∃ r,
    calculate_sentiment_scores words positive_words negative_words = Some r
    ∧ (0 <= subjectivity_score r)%Q ∧ (subjectivity_score r <= 1)%Q.
Proof.
  intros Hd. eexists. split; [apply sentiment_total|]. simpl.
  pose proof (members_bounds words positive_words) as [Hp _].
  pose proof (members_bounds words negative_words) as [Hn _].
  pose proof (members_disjoint words _ _ Hd) as Hle.
  assert (0 < inject_Z (len words) + epsilon)%Q as Hden
    by (apply plus_epsilon_positive; unfold len; lia).
  assert (0 < epsilon)%Q as Heps by reflexivity.
  rewrite Zle_Qle in Hle.
  split.
  - apply Qle_shift_div_l; [exact Hden|].
    rewrite Qmult_0_l. apply inject_Z_nonneg. lia.
  - apply Qle_shift_div_r; [exact Hden|]. lra.
Qed.

Lemma subjectivity_at_most_one_disjoint_witness :
  ∃ r,
    calculate_sentiment_scores (map py ["good"; "good"; "bad"])
      {[py "good"]} {[py "bad"]} = Some r
    ∧ (0 <= subjectivity_score r)%Q ∧ (subjectivity_score r <= 1)%Q.
Proof.
  apply (subjectivity_at_most_one_disjoint (map py ["good"; "good"; "bad"])
           {[py "good"]} {[py "bad"]}).
  apply disjoint_singleton_l. rewrite elem_of_singleton. discriminate.
Defined.

(** X3. Whatever the two word sets are, the subjectivity score lies between
    0 and 2, both ends allowed: a word can count at most twice, once as
    positive and once as negative. *)
Theorem subjectivity_at_most_two
    (words : list str) (positive_words negative_words : gset str) :
  ∃ r,
    calculate_sentiment_scores words positive_words negative_words = Some r
    ∧ (0 <= subjectivity_score r)%Q ∧ (subjectivity_score r <= 2)%Q.
Proof.
  eexists. split; [apply sentiment_total|]. simpl.
  pose proof (members_bounds words positive_words) as [Hp Hp'].
  pose proof (members_bounds words negative_words) as [Hn Hn'].
  assert (0 < inject_Z (len words) + epsilon)%Q as Hden
    by (apply plus_epsilon_positive; unfold len; lia).
  assert (0 < epsilon)%Q as Heps by reflexivity.
  assert (inject_Z (members words positive_words
                    + members words negative_words)
          <= 2 * inject_Z (len words))%Q as Hle.
  { change 2%Q with (inject_Z 2). rewrite <- inject_Z_mult, <- Zle_Qle. lia. }
  split.
  - apply Qle_shift_div_l; [exact Hden|].
    rewrite Qmult_0_l. apply inject_Z_nonneg. lia.
  - apply Qle_shift_div_r; [exact Hden|]. lra.
Qed.

(** X4. The four sentiment scores depend on the words only up to their
    order: a rearranged word list is scored the same. *)
Theorem sentiment_order_irrelevant
    (words words' : list str) (positive_words negative_words : gset str) :
  words ≡ₚ words' →
  calculate_sentiment_scores words positive_words negative_words
  = calculate_sentiment_scores words' positive_words negative_words.
Proof.
  intros Hp. rewrite !sentiment_total.
  rewrite (members_permutation words words' positive_words Hp).
  rewrite (members_permutation words words' negative_words Hp).
  unfold len. now rewrite Hp.
Qed.

Lemma sentiment_order_irrelevant_witness :
  calculate_sentiment_scores (map py ["good"; "bad"; "day"])
    {[py "good"]} {[py "bad"]}
  = calculate_sentiment_scores (map py ["bad"; "day"; "good"])
      {[py "good"]} {[py "bad"]}.
Proof.
  apply (sentiment_order_irrelevant (map py ["good"; "bad"; "day"])
           (map py ["bad"; "day"; "good"])).
  exact (Permutation_cons_append (map py ["bad"; "day"]) (py "good")).
Defined.

(** X5. When no word of the list is in either set, which includes the empty
    list, the scorer does not fail on the zero counts: positive and negative
    score are 0, and polarity and subjectivity are 0. *)
Theorem sentiment_without_hits
    (words : list str) (positive_words negative_words : gset str) :
  (∀ word, word ∈ words → (word ∉ positive_words) ∧ (word ∉ negative_words)) →
  ∃ r,
    calculate_sentiment_scores words positive_words negative_words = Some r
    ∧ positive_score r = 0 ∧ negative_score r = 0
    ∧ (polarity_score r == 0)%Q ∧ (subjectivity_score r == 0)%Q.
Proof.
  intros Hno. eexists. split; [apply sentiment_total|]. simpl.
  rewrite !(members_none words positive_words) by (intros w Hw; now apply Hno).
  rewrite !(members_none words negative_words) by (intros w Hw; now apply Hno).
  repeat split; reflexivity.
Qed.

Lemma sentiment_without_hits_witness :
  ∃ r,
    calculate_sentiment_scores [] {[py "good"]} {[py "bad"]} = Some r
    ∧ positive_score r = 0 ∧ negative_score r = 0
    ∧ (polarity_score r == 0)%Q ∧ (subjectivity_score r == 0)%Q.
Proof.
  apply (sentiment_without_hits [] {[py "good"]} {[py "bad"]}).
  intros word Hin. inversion Hin.
Defined.

(** ** Readability Scorer *)

Lemma readability_value `{Tokenizer} (text : str) :
  calculate_readability_scores text =
  Some {| avg_sentence_length :=
            if decide (len (sent_tokenize text) > 0)%Z
            then (inject_Z (len (word_tokenize text))
                  / inject_Z (len (sent_tokenize text)))%Q
            else 0%Q;
          percentage_complex_words :=
            if decide (len (word_tokenize text) > 0)%Z
            then (inject_Z (len (filter is_complex (word_tokenize text)))
                  / inject_Z (len (word_tokenize text)))%Q
            else 0%Q;
          fog_index :=
            ((4 # 10)
             * ((if decide (len (sent_tokenize text) > 0)%Z
                 then (inject_Z (len (word_tokenize text))
                       / inject_Z (len (sent_tokenize text)))%Q
                 else 0%Q)
                + (if decide (len (word_tokenize text) > 0)%Z
                   then (inject_Z (len (filter is_complex (word_tokenize text)))
                         / inject_Z (len (word_tokenize text)))%Q
                   else 0%Q)))%Q;
          complex_word_count := len (filter is_complex (word_tokenize text));
          word_count := len (word_tokenize text) |}.
Proof.
  unfold calculate_readability_scores.
  destruct (decide (len (sent_tokenize text) > 0)%Z) as [Hs|Hs],
           (decide (len (word_tokenize text) > 0)%Z) as [Hw|Hw];
    rewrite ?truediv_positive by (apply inject_Z_positive; assumption);
    reflexivity.
Qed.

Lemma ratio_nonneg (a b : Z) : 0 ≤ a → b > 0 → (0 <= inject_Z a / inject_Z b)%Q.
Proof.
  intros Ha Hb. apply Qle_shift_div_l; [now apply inject_Z_positive|].
  rewrite Qmult_0_l. now apply inject_Z_nonneg.
Qed.

Lemma ratio_at_most_one (a b : Z) :
  a ≤ b → b > 0 → (inject_Z a / inject_Z b <= 1)%Q.
Proof.
  intros Hab Hb. apply Qle_shift_div_r; [now apply inject_Z_positive|].
  rewrite Qmult_1_l, <- Zle_Qle. exact Hab.
Qed.

(** X6. The readability scorer fails on no text, whatever the tokenizers
    return. The average sentence length is at least 0; the share of complex
    words is a fraction between 0 and 1 (it is not scaled to 100); so the
    fog index lies between 0.4 times the average sentence length and 0.4
    times that length plus one. *)
Theorem readability_never_fails `{Tokenizer} (text : str) :
  ∃ r,
    calculate_readability_scores text = Some r
    ∧ (0 <= avg_sentence_length r)%Q
    ∧ (0 <= percentage_complex_words r)%Q
    ∧ (percentage_complex_words r <= 1)%Q
    ∧ ((4 # 10) * avg_sentence_length r <= fog_index r)%Q
    ∧ (fog_index r <= (4 # 10) * (avg_sentence_length r + 1))%Q.
Proof.
  eexists. split; [apply readability_value|]. simpl.
  pose proof (length_filter is_complex (word_tokenize text)) as Hc.
  set (avg := if decide (len (sent_tokenize text) > 0) then _ else _).
  set (pct := if decide (len (word_tokenize text) > 0) then _ else _).
  assert (0 <= avg)%Q as Havg.
  { subst avg. destruct (decide (len (sent_tokenize text) > 0)) as [Hs|Hs].
    - apply ratio_nonneg; [unfold len; lia|exact Hs].
    - apply Qle_refl. }
  assert (0 <= pct ∧ pct <= 1)%Q as [Hp0 Hp1].
  { subst pct. destruct (decide (len (word_tokenize text) > 0)) as [Hw|Hw].
    - split.
      + apply ratio_nonneg; [unfold len; lia|exact Hw].
      + apply ratio_at_most_one; [unfold len; lia|exact Hw].
    - split; [apply Qle_refl|discriminate]. }
  repeat split; try assumption; lra.
Qed.

(** ** Lexical Stats Scorer *)

Lemma vowel_occurrences_bounds (words : list str) :
  0 ≤ vowel_occurrences words ≤ py_sum (map len words).
Proof.
  induction words as [|w ws IH]; [unfold py_sum; simpl; lia|].
  simpl map. rewrite py_sum_cons. simpl vowel_occurrences.
  pose proof (length_filter (λ c, c ∈ py "aeiou") w). unfold len in *. lia.
Qed.

Section AdditionalValue.
Context `{Unicode}.

Lemma additional_value (words : list str) :
  calculate_additional_scores words =
  Some {| syllable_count := vowel_occurrences words;
          personal_pronouns := len (findall_pronouns (join (py " ") words));
          avg_word_length :=
            match words with
            | [] => 0%Q
            | _ => (inject_Z (py_sum (map len words)) / inject_Z (len words))%Q
            end;
          avg_syllables_per_word :=
            match words with
            | [] => 0%Q
            | _ => (inject_Z (vowel_occurrences words)
                    / inject_Z (len words))%Q
            end |}.
Proof.
  unfold calculate_additional_scores.
  rewrite syllables_vowel_occurrences. destruct words as [|w ws].
  - reflexivity.
  - assert (0 < inject_Z (len (w :: ws)))%Q as Hpos
      by (apply inject_Z_positive; unfold len; simpl length; lia).
    rewrite !(truediv_positive _ _ Hpos). reflexivity.
Qed.

(** X7. The lexical-stats scorer fails on no word list. The syllable count
    is between 0 and the total number of characters of the words, so the
    average number of syllables per word is between 0 and the average word
    length. *)
Theorem syllables_at_most_characters (words : list str) :
  ∃ r,
    calculate_additional_scores words = Some r
    ∧ 0 ≤ syllable_count r ≤ py_sum (map len words)
    ∧ (0 <= avg_syllables_per_word r)%Q
    ∧ (avg_syllables_per_word r <= avg_word_length r)%Q.
Proof.
  eexists. split; [apply additional_value|]. simpl.
  pose proof (vowel_occurrences_bounds words) as [Hlo Hhi].
  split; [lia|]. destruct words as [|w ws].
  - split; apply Qle_refl.
  - assert (len (w :: ws) > 0) as Hn by (unfold len; simpl length; lia).
    split.
    + now apply ratio_nonneg.
    + unfold Qdiv. apply Qmult_le_compat_r.
      * rewrite <- Zle_Qle. exact Hhi.
      * apply Qinv_le_0_compat. apply Qlt_le_weak.
        now apply inject_Z_positive.
Qed.
End AdditionalValue.

(** ** Pronouns on lists of words *)

Lemma existsb_agree {A} (f g : A → bool) (l : list A) :
  (∀ x, x ∈ l → f x = g x) → existsb f l = existsb g l.
Proof.
  induction l as [|x l IH]; intros Hfg; [reflexivity|]. simpl.
  rewrite (Hfg x) by left. rewrite IH; [reflexivity|].
  intros y Hy. apply Hfg. now right.
Qed.

Section PronounPerWord.
Context `{Unicode}.
Hypothesis letters_are_words : pattern_letters_are_words.
Hypothesis space_no_word : space_is_no_word.

(** A literal whose letters match word characters only, at the head of a run
    of word characters that ends before [tail]: the literal matches with no
    word character after it exactly when it is the whole run up to case. *)
Lemma literal_covers_run (lit w tail : str) :
  (∀ p, p ∈ lit → ∀ c, re_ignorecase p c = true → re_word c = true) →
  Forall (λ c, re_word c = true) w →
  side_is_word (head tail) = false →
  match match_literal lit (w ++ tail) with
  | Some (_, rest) => negb (side_is_word (head rest))
  | None => false
  end = same_ignoring_case lit w.
Proof.
  intros Hlit Hw Htail. revert w Hw.
  induction lit as [|p lit IH]; intros w Hw.
  - destruct w as [|c w]; simpl.
    + now rewrite Htail.
    + inversion Hw as [|? ? Hc _]; subst. now rewrite Hc.
  - assert (∀ q, q ∈ lit → ∀ c, re_ignorecase q c = true → re_word c = true)
      as Hlit' by (intros q Hq; apply Hlit; now right).
    destruct w as [|c w].
    + simpl. destruct tail as [|c t]; [reflexivity|].
      destruct (re_ignorecase p c) eqn:Hpc; [|reflexivity].
      simpl in Htail. rewrite (Hlit p (list_elem_of_here p lit) c Hpc) in Htail.
      discriminate.
    + inversion Hw as [|? ? Hc Hw']; subst. simpl.
      destruct (re_ignorecase p c); [|reflexivity]. simpl.
      rewrite <- (IH Hlit' w Hw').
      now destruct (match_literal lit (w ++ tail)) as [[m rest]|].
Qed.

Lemma starts_at_word prev (w tail : str) :
  side_is_word prev = false →
  Forall (λ c, re_word c = true) w →
  side_is_word (head tail) = false →
  starts_whole_word prev (w ++ tail) = is_pronoun w.
Proof.
  intros Hprev Hw Htail. unfold starts_whole_word, is_pronoun.
  apply existsb_agree. intros lit Hlit.
  rewrite <- (literal_covers_run lit w tail); try assumption.
  - rewrite Hprev. now destruct (match_literal lit (w ++ tail)) as [[m rest]|].
  - intros p Hp c. now apply (letters_are_words lit).
Qed.

Lemma count_at_end (x : char) :
  re_word x = true → count_whole_words (Some x) [] = 0%nat.
Proof. intros _. reflexivity. Qed.

Lemma count_over_word prev (w tail : str) :
  side_is_word prev = false →
  is_word w →
  side_is_word (head tail) = false →
  ∃ x, re_word x = true
       ∧ count_whole_words prev (w ++ tail)
         = ((if is_pronoun w then 1 else 0)
            + count_whole_words (Some x) tail)%nat.
Proof.
  intros Hprev [Hne Hw] Htail.
  pose proof (starts_at_word prev w tail Hprev Hw Htail) as Hst.
  destruct w as [|c m]; [contradiction|].
  inversion Hw as [|? ? Hc Hm]; subst.
  pose proof (before_end_word (Some c) (c :: m) Hne Hw) as Hlast.
  rewrite before_end_cons in Hlast.
  destruct (before_end (Some c) m) as [x|] eqn:Hx; [|discriminate].
  exists x. split; [exact Hlast|].
  change (count_whole_words prev ((c :: m) ++ tail))
    with ((if starts_whole_word prev ((c :: m) ++ tail) then 1 else 0)
          + count_whole_words (Some c) (m ++ tail))%nat.
  rewrite Hst, (count_skip_word c m tail Hc Hm), Hx.
  reflexivity.
Qed.

Lemma count_joined_words prev (words : list str) :
  side_is_word prev = false →
  Forall is_word words →
  count_whole_words prev (join (py " ") words)
  = length (filter (λ word, is_pronoun word = true) words).
Proof.
  intros Hprev Hall. revert prev Hprev.
  induction Hall as [|w ws Hw Hws IH]; intros prev Hprev; [reflexivity|].
  assert (length (filter (λ word, is_pronoun word = true) (w :: ws))
          = ((if is_pronoun w then 1 else 0)
             + length (filter (λ word, is_pronoun word = true) ws))%nat)
    as Hfilter.
  { rewrite filter_cons. destruct (is_pronoun w); reflexivity. }
  rewrite Hfilter. destruct ws as [|w' ws].
  - change (join (py " ") [w]) with w. rewrite <- (app_nil_r w) at 1.
    destruct (count_over_word prev w [] Hprev Hw eq_refl) as (x & Hx & ->).
    now rewrite (count_at_end x Hx).
  - change (join (py " ") (w :: w' :: ws))
      with (w ++ 32%N :: join (py " ") (w' :: ws)).
    destruct (count_over_word prev w (32%N :: join (py " ") (w' :: ws))
                Hprev Hw space_no_word) as (x & Hx & ->).
    f_equal.
    change (count_whole_words (Some x) (32%N :: join (py " ") (w' :: ws)))
      with ((if starts_whole_word (Some x)
                  (32%N :: join (py " ") (w' :: ws)) then 1 else 0)
            + count_whole_words (Some 32%N) (join (py " ") (w' :: ws)))%nat.
    rewrite (starts_after_word x _ Hx). simpl "+".
    apply (IH (Some 32%N)). exact space_no_word.
Qed.
End PronounPerWord.

Lemma pronoun_words_bounds `{Unicode} (words : list str) :
  0 ≤ pronoun_words words ≤ len words.
Proof.
  unfold pronoun_words, len.
  pose proof (length_filter (λ word, is_pronoun word = true) words). lia.
Qed.

Lemma pronoun_words_none `{Unicode} (words : list str) :
  (∀ word, word ∈ words → is_pronoun word = false) → pronoun_words words = 0.
Proof.
  intros Hno. unfold pronoun_words, len.
  induction words as [|w ws IH]; [reflexivity|].
  rewrite filter_cons_False by (rewrite Hno by left; discriminate).
  apply IH. intros x Hx. apply Hno. now right.
Qed.

Lemma pronouns_of_words `{Unicode} (words : list str) :
  pattern_letters_are_words → space_is_no_word → Forall is_word words →
  len (findall_pronouns (join (py " ") words)) = pronoun_words words.
Proof.
  intros Hletters Hspace Hwords. unfold pronoun_words, len, findall_pronouns.
  f_equal. rewrite (findall_counts Hletters) by lia.
  now apply count_joined_words.
Qed.

(** X8. On a list of words made of word characters the personal-pronoun
    count is the number of words that are I, we, my, ours or us up to case;
    it is at most the number of words. *)
Theorem personal_pronouns_per_word `{Unicode} :
  pattern_letters_are_words → space_is_no_word →
  ∀ words : list str,
    Forall is_word words →
    ∃ r,
      calculate_additional_scores words = Some r
      ∧ personal_pronouns r = pronoun_words words
      ∧ 0 ≤ personal_pronouns r ≤ len words.
Proof.
  intros Hletters Hspace words Hwords.
  eexists. split; [apply additional_value|]. simpl.
  rewrite (pronouns_of_words words Hletters Hspace Hwords).
  split; [reflexivity|apply pronoun_words_bounds].
Qed.

Lemma simple_space_is_no_word : @space_is_no_word Simple.unicode.
Proof. reflexivity. Qed.

Lemma simple_alphabetic_are_words : @alphabetic_are_words Simple.unicode.
Proof.
  intros c Hc. simpl in *.
  destruct (Simple.is_upper c), (Simple.is_lower c);
    try reflexivity; discriminate.
Qed.

Lemma personal_pronouns_per_word_witness :
  ∃ r,
    @calculate_additional_scores Simple.unicode
      (map py ["we"; "think"; "US"; "trust"; "us"]) = Some r
    ∧ personal_pronouns r
      = @pronoun_words Simple.unicode
          (map py ["we"; "think"; "US"; "trust"; "us"])
    ∧ 0 ≤ personal_pronouns r
        ≤ len (map py ["we"; "think"; "US"; "trust"; "us"]).
Proof.
  apply (@personal_pronouns_per_word Simple.unicode
           simple_letters_are_words simple_space_is_no_word
           (map py ["we"; "think"; "US"; "trust"; "us"])).
  repeat (apply Forall_cons; split;
          [split; [discriminate|repeat constructor]|]).
  apply Forall_nil_2.
Defined.

Section CleanedPronouns.
Context `{Unicode} `{Tokenizer}.

Lemma cleaned_are_words (text : str) (stop_words : gset str) :
  alphabetic_are_words →
  Forall is_word (clean_and_tokenize text stop_words).
Proof.
  intros Halpha. eapply Forall_impl; [apply cleaned_all_kept|].
  intros w [Hw _]. unfold isalpha in Hw. destruct w as [|c w]; [discriminate|].
  split; [discriminate|]. apply Forall_forall. intros x Hx.
  apply Halpha. rewrite forallb_forall in Hw. apply Hw.
  now apply list_elem_of_In.
Qed.

(** X9. For the cleaned words of a text the personal-pronoun count is the
    number of cleaned tokens that are I, we, my, ours or us up to case. So
    when the stop words hold every spelling of these pronouns that
    lower-casing leaves unchanged, the count is 0 for every text. *)
Theorem pronouns_of_cleaned_text :
  pattern_letters_are_words → space_is_no_word → alphabetic_are_words →
  tokens_stay_lower →
  ∀ (text : str) (stop_words : gset str),
    ∃ r,
      calculate_additional_scores (clean_and_tokenize text stop_words)
      = Some r
      ∧ personal_pronouns r
        = pronoun_words (clean_and_tokenize text stop_words)
      ∧ ((∀ word, is_pronoun word = true → str_lower word = word →
                  word ∈ stop_words) →
         personal_pronouns r = 0).
Proof.
  intros Hletters Hspace Halpha Hlow text sw.
  eexists. split; [apply additional_value|]. simpl.
  rewrite (pronouns_of_words _ Hletters Hspace
             (cleaned_are_words text sw Halpha)).
  split; [reflexivity|]. intros Hstop. apply pronoun_words_none.
  intros w Hw. destruct (is_pronoun w) eqn:Hp; [|reflexivity]. exfalso.
  unfold clean_and_tokenize in Hw. apply list_elem_of_filter in Hw as [[Ha Hn] Hin].
  apply Hn, Hstop; [exact Hp|]. now apply (Hlow text).
Qed.
End CleanedPronouns.

Lemma pronouns_of_cleaned_text_witness :
  ∃ r,
    @calculate_additional_scores Simple.unicode
      (@clean_and_tokenize Simple.unicode Simple.tokenizer
         (py "We trust US and us")
         {[py "i"; py "we"; py "my"; py "ours"; py "us"]})
    = Some r
    ∧ personal_pronouns r
      = @pronoun_words Simple.unicode
          (@clean_and_tokenize Simple.unicode Simple.tokenizer
             (py "We trust US and us")
             {[py "i"; py "we"; py "my"; py "ours"; py "us"]})
    ∧ ((∀ word,
          @is_pronoun Simple.unicode word = true →
          @str_lower Simple.unicode word = word →
          word ∈ ({[py "i"; py "we"; py "my"; py "ours"; py "us"]}
                  : gset str)) →
       personal_pronouns r = 0).
Proof.
  exact (@pronouns_of_cleaned_text Simple.unicode Simple.tokenizer
           simple_letters_are_words simple_space_is_no_word
           simple_alphabetic_are_words simple_tokens_stay_lower
           (py "We trust US and us")
           {[py "i"; py "we"; py "my"; py "ours"; py "us"]}).
Defined.

Lemma simple_same_ignoring_case (lit w : str) :
  @same_ignoring_case Simple.unicode lit w = true →
  map Simple.lower_char lit = map Simple.lower_char w.
Proof.
  revert w. induction lit as [|p lit IH]; intros [|c w]; simpl;
    try discriminate; [reflexivity|].
  intros Hsame. apply andb_true_iff in Hsame as [Hpc Hrest].
  apply N.eqb_eq in Hpc. rewrite Hpc, (IH w Hrest). reflexivity.
Qed.

(** In ASCII the lower-case spellings of the pronouns are i, we, my, ours
    and us: with these five as stop words no cleaned token is a pronoun. *)
Lemma simple_lower_pronouns (word : str) :
  @is_pronoun Simple.unicode word = true →
  @str_lower Simple.unicode word = word →
  word ∈ ({[py "i"; py "we"; py "my"; py "ours"; py "us"]} : gset str).
Proof.
  unfold is_pronoun. intros Hp Hlow. simpl in Hlow.
  apply existsb_exists in Hp as (lit & Hin & Hsame).
  apply simple_same_ignoring_case in Hsame. rewrite Hlow in Hsame.
  subst word. apply list_elem_of_In in Hin. vm_compute in Hin.
  repeat (apply elem_of_cons in Hin as [->|Hin]; [vm_compute; set_solver|]).
  inversion Hin.
Qed.

(** ** The cleaner with the scorers *)

Lemma members_agree (words : list str) (s1 s2 : gset str) :
  (∀ word, word ∈ words → word ∈ s1 ↔ word ∈ s2) →
  members words s1 = members words s2.
Proof.
  intros Hagree. unfold members. f_equal. f_equal.
  now apply filter_agree.
Qed.

Section CleanedSentiment.
Context `{Unicode} `{Tokenizer}.

(** X10. On the cleaned words of a text only the dictionary entries that the
    cleaner would keep can count: an entry that is not alphabetic (it holds
    a digit, a sign or a hyphen, or is empty) or that is a stop word adds
    nothing to either score, so the scores are those for the dictionaries
    without such entries. *)
Theorem sentiment_of_cleaned_text
    (text : str) (stop_words positive_words negative_words : gset str) :
  calculate_sentiment_scores (clean_and_tokenize text stop_words)
    positive_words negative_words
  = calculate_sentiment_scores (clean_and_tokenize text stop_words)
      (filter (keeps stop_words) positive_words)
      (filter (keeps stop_words) negative_words).
Proof.
  rewrite !sentiment_total.
  assert (∀ s : gset str,
            members (clean_and_tokenize text stop_words) s
            = members (clean_and_tokenize text stop_words)
                (filter (keeps stop_words) s)) as Hm.
  { intros s. apply members_agree. intros w Hw. rewrite elem_of_filter.
    pose proof (cleaned_all_kept text stop_words) as Hall.
    rewrite Forall_forall in Hall. specialize (Hall w Hw). tauto. }
  now rewrite <- !Hm.
Qed.

(** X11. Stop words add up: cleaning with the union of two stop-word sets
    is cleaning with the first set and then dropping the words of the
    second; so a larger stop-word set never yields more words. *)
Theorem clean_with_more_stop_words (text : str) (sw1 sw2 : gset str) :
  clean_and_tokenize text (sw1 ∪ sw2)
  = filter (λ word, word ∉ sw2) (clean_and_tokenize text sw1)
  ∧ clean_and_tokenize text (sw1 ∪ sw2)
      `sublist_of` clean_and_tokenize text sw1
  ∧ len (clean_and_tokenize text (sw1 ∪ sw2))
    ≤ len (clean_and_tokenize text sw1).
Proof.
  assert (clean_and_tokenize text (sw1 ∪ sw2)
          = filter (λ word, word ∉ sw2) (clean_and_tokenize text sw1)) as Heq.
  { unfold clean_and_tokenize. rewrite list_filter_filter.
    apply list_filter_iff. intros w. unfold keeps.
    rewrite not_elem_of_union. tauto. }
  split; [exact Heq|]. rewrite Heq. split.
  - apply sublist_filter.
  - unfold len. apply inj_le, length_filter.
Qed.
End CleanedSentiment.

(** ** File names and URL identifiers *)

Lemma split_pieces_first (sep : char) (cur s : str) :
  split_pieces sep cur s !! 0%nat = Some (cur ++ before_first sep s).
Proof.
  revert cur. induction s as [|c s IH]; intros cur; simpl.
  - now rewrite app_nil_r.
  - destruct (c =? sep)%N; simpl.
    + now rewrite app_nil_r.
    + rewrite IH, <- app_assoc. reflexivity.
Qed.

Lemma before_first_free (sep : char) (s : str) : sep ∉ before_first sep s.
Proof.
  induction s as [|c s IH]; simpl; [apply not_elem_of_nil|].
  destruct (N.eqb_spec c sep) as [->|Hne]; [apply not_elem_of_nil|].
  intros Hin. apply elem_of_cons in Hin as [->|Hin]; [now apply Hne|].
  now apply IH.
Qed.

Lemma before_first_split (sep : char) (s : str) :
  s = before_first sep s ∨ ∃ tail, s = before_first sep s ++ sep :: tail.
Proof.
  induction s as [|c s IH]; simpl; [now left|].
  destruct (N.eqb_spec c sep) as [->|Hne].
  - right. now exists s.
  - destruct IH as [IH|[tail IH]].
    + left. f_equal. exact IH.
    + right. exists tail. simpl. f_equal. exact IH.
Qed.

Lemma before_first_app (sep : char) (s tail : str) :
  sep ∉ s → before_first sep (s ++ sep :: tail) = s.
Proof.
  induction s as [|c s IH]; intros Hfree; simpl.
  - now rewrite N.eqb_refl.
  - destruct (N.eqb_spec c sep) as [->|Hne].
    + exfalso. apply Hfree. left.
    + rewrite IH; [reflexivity|]. intros Hin. apply Hfree. now right.
Qed.

(** X12. The file that [extract_data] names after a URL identifier is taken
    up by [analyze_data] (its name ends in ".txt"), and [analyze_data] reads
    the identifier back from the name exactly when the identifier holds no
    dot; an identifier with a dot comes back cut at its first dot. *)
Theorem article_name_round_trip (url_id : str) :
  endswith (article_file_name url_id) (py ".txt") = true
  ∧ (url_id_of (article_file_name url_id) = Some url_id ↔ 46%N ∉ url_id)
  ∧ url_id_of (article_file_name url_id) = Some (before_first 46%N url_id).
Proof.
  assert (url_id_of (article_file_name url_id)
          = Some (before_first 46%N url_id)) as Hid.
  { unfold url_id_of, split_on, article_file_name.
    rewrite split_pieces_first. simpl. f_equal.
    destruct (before_first_split 46%N url_id) as [Heq|[tail Heq]].
    - rewrite Heq at 1. change (py ".txt") with (46%N :: py "txt").
      apply before_first_app, before_first_free.
    - rewrite Heq at 1. rewrite <- app_assoc. simpl.
      apply before_first_app, before_first_free. }
  split; [|split; [|exact Hid]].
  - unfold endswith, article_file_name. apply bool_decide_eq_true_2.
    now exists url_id.
  - rewrite Hid. split.
    + intros [= Heq]. rewrite <- Heq. apply before_first_free.
    + intros Hfree. f_equal.
      destruct (before_first_split 46%N url_id) as [Heq|[tail Heq]];
        [now symmetry|].
      exfalso. apply Hfree. rewrite Heq. apply elem_of_app. right. left.
Qed.

(** X13. Reading the URL identifier from a file name never fails: the
    identifier is the part of the name before its first dot (all of the
    name when it holds no dot), so it holds no dot itself. *)
Theorem url_id_before_first_dot (file_name : str) :
  ∃ url_id,
    url_id_of file_name = Some url_id
    ∧ (46%N ∉ url_id)
    ∧ (file_name = url_id ∨ ∃ tail, file_name = url_id ++ 46%N :: tail).
Proof.
  exists (before_first 46%N file_name). split; [|split].
  - unfold url_id_of, split_on. now rewrite split_pieces_first.
  - apply before_first_free.
  - apply before_first_split.
Qed.

(** ** The URL mapping *)

Lemma dict_fold_other (d : gmap str str) (pairs : list (str * str)) (key : str) :
  key ∉ pairs.*1 →
  foldl (λ (d : gmap str str) kv, <[kv.1 := kv.2]> d) d pairs !! key
  = d !! key.
Proof.
  revert d. induction pairs as [|[k v] pairs IH]; intros d Hnot; [reflexivity|].
  simpl in *. rewrite IH.
  - apply lookup_insert_ne. intros ->. apply Hnot. left.
  - intros Hin. apply Hnot. now right.
Qed.

Lemma dict_of_missing (pairs : list (str * str)) (key : str) :
  key ∉ pairs.*1 → dict_of pairs !! key = None.
Proof. intros Hnot. unfold dict_of. now rewrite dict_fold_other. Qed.

Lemma dict_of_last (pairs1 pairs2 : list (str * str)) (key value : str) :
  key ∉ pairs2.*1 →
  dict_of (pairs1 ++ (key, value) :: pairs2) !! key = Some value.
Proof.
  intros Hnot. unfold dict_of. rewrite foldl_app. simpl.
  rewrite dict_fold_other by exact Hnot. apply lookup_insert_eq.
Qed.

Lemma dict_of_unique (pairs : list (str * str)) (key value : str) :
  NoDup pairs.*1 → (key, value) ∈ pairs → dict_of pairs !! key = Some value.
Proof.
  intros Hnodup Hin.
  apply list_elem_of_split in Hin as (pairs1 & pairs2 & ->).
  apply dict_of_last. rewrite fmap_app, fmap_cons in Hnodup.
  apply NoDup_app in Hnodup as (_ & _ & Hnodup).
  now apply NoDup_cons in Hnodup as [Hnot _].
Qed.

(** X14. The URL of an identifier is looked up in the mapping built from
    the two columns of the input sheet: an identifier that is in no row
    gets the empty string, and an identifier that is in several rows gets
    the URL of the last of them. *)
Theorem url_of_identifier (url_ids urls : list str) (url_id : str) :
  (url_id ∉ (zip url_ids urls).*1 →
   dict_get (dict_of (zip url_ids urls)) url_id [] = [])
  ∧ (∀ rows1 rows2 url,
       zip url_ids urls = rows1 ++ (url_id, url) :: rows2 →
       url_id ∉ rows2.*1 →
       dict_get (dict_of (zip url_ids urls)) url_id [] = url).
Proof.
  split.
  - intros Hnot. unfold dict_get. now rewrite dict_of_missing.
  - intros rows1 rows2 url Hrows Hnot. unfold dict_get.
    rewrite Hrows. now rewrite dict_of_last.
Qed.

(** X15. From a row of the input sheet to the output: when the identifiers
    of the sheet are pairwise different and the identifier of a row holds no
    dot, the file written for the row is read back under that identifier and
    is given the URL of that row. *)
Theorem row_file_resolves (url_ids urls : list str) (url_id url : str) :
  NoDup (zip url_ids urls).*1 →
  (url_id, url) ∈ zip url_ids urls →
  46%N ∉ url_id →
  ∃ read_id,
    url_id_of (article_file_name url_id) = Some read_id
    ∧ read_id = url_id
    ∧ dict_get (dict_of (zip url_ids urls)) read_id [] = url.
Proof.
  intros Hnodup Hin Hfree. exists (before_first 46%N url_id).
  assert (before_first 46%N url_id = url_id) as Hid.
  { destruct (before_first_split 46%N url_id) as [Heq|[tail Heq]];
      [now symmetry|].
    exfalso. apply Hfree. rewrite Heq. apply elem_of_app. right. left. }
  split; [|split; [exact Hid|]].
  - unfold url_id_of, split_on, article_file_name.
    rewrite split_pieces_first. simpl. f_equal.
    rewrite <- Hid at 1. rewrite Hid.
    change (py ".txt") with (46%N :: py "txt").
    now apply before_first_app.
  - rewrite Hid. unfold dict_get.
    now rewrite (dict_of_unique _ url_id url Hnodup Hin).
Qed.

Lemma row_file_resolves_witness :
  ∃ read_id,
    url_id_of (article_file_name (py "blackassign0002")) = Some read_id
    ∧ read_id = py "blackassign0002"
    ∧ dict_get
        (dict_of (zip [py "blackassign0001"; py "blackassign0002"]
                      [py "https://a.example/1"; py "https://a.example/2"]))
        read_id []
      = py "https://a.example/2".
Proof.
  apply (row_file_resolves
           [py "blackassign0001"; py "blackassign0002"]
           [py "https://a.example/1"; py "https://a.example/2"]
           (py "blackassign0002") (py "https://a.example/2")).
  - refine (bool_decide_unpack _ _). vm_compute. exact I.
  - refine (bool_decide_unpack _ _). vm_compute. exact I.
  - refine (bool_decide_unpack _ _). vm_compute. exact I.
Defined.

(** ** Splitting at white space *)

Section Splitting.
Context `{Spaces}.

Lemma split_runs_pieces (cur s w : str) :
  Forall (λ c, char_isspace c = false) cur →
  w ∈ split_runs cur s →
  w ≠ [] ∧ Forall (λ c, char_isspace c = false) w
  ∧ Forall (λ c, c ∈ cur ++ s) w.
Proof.
  revert cur. induction s as [|x s IH]; intros cur Hcur Hw; simpl in Hw.
  - destruct cur as [|y cur]; [inversion Hw|].
    apply list_elem_of_singleton in Hw. subst w.
    split; [discriminate|]. split; [exact Hcur|].
    rewrite app_nil_r. now apply Forall_forall.
  - destruct (char_isspace x) eqn:Hx.
    + assert (w ∈ split_runs [] s →
              w ≠ [] ∧ Forall (λ c, char_isspace c = false) w
              ∧ Forall (λ c, c ∈ cur ++ x :: s) w) as Hrest.
      { intros Hin. destruct (IH [] (Forall_nil_2 _) Hin) as (Hne & Hns & Hch).
        split; [exact Hne|]. split; [exact Hns|].
        eapply Forall_impl; [exact Hch|]. intros c Hc. simpl in Hc.
        apply elem_of_app. right. now right. }
      destruct cur as [|y cur]; [now apply Hrest|].
      apply elem_of_cons in Hw as [->|Hw]; [|now apply Hrest].
      split; [discriminate|]. split; [exact Hcur|].
      apply Forall_forall. intros c Hc. apply elem_of_app. now left.
    + assert (Forall (λ c, char_isspace c = false) (cur ++ [x])) as Hcur'
        by (apply Forall_app; split; [exact Hcur|now constructor]).
      destruct (IH _ Hcur' Hw) as (Hne & Hns & Hch).
      split; [exact Hne|]. split; [exact Hns|].
      now rewrite <- app_assoc in Hch.
Qed.

(** What [s.split()] returns: no piece is empty, none holds white space,
    and every character of a piece is a character of [s]. *)
Lemma py_split_pieces (s w : str) :
  w ∈ py_split s →
  w ≠ [] ∧ Forall (λ c, char_isspace c = false) w ∧ Forall (λ c, c ∈ s) w.
Proof. intros Hw. now apply (split_runs_pieces [] s w (Forall_nil_2 _)). Qed.

Lemma split_runs_word (cur w rest : str) :
  Forall (λ c, char_isspace c = false) w →
  split_runs cur (w ++ rest) = split_runs (cur ++ w) rest.
Proof.
  intros Hw. revert cur. induction Hw as [|c w Hc _ IH]; intros cur; simpl.
  - now rewrite app_nil_r.
  - rewrite Hc, IH, <- app_assoc. reflexivity.
Qed.

Lemma split_runs_space (cur rest : str) (c : char) :
  char_isspace c = true → cur ≠ [] →
  split_runs cur (c :: rest) = cur :: split_runs [] rest.
Proof.
  intros Hc Hne. simpl. rewrite Hc. destruct cur; [contradiction|reflexivity].
Qed.

Lemma py_split_join (ws : list str) :
  char_isspace 32%N = true →
  Forall (λ w, w ≠ [] ∧ Forall (λ c, char_isspace c = false) w) ws →
  py_split (join (py " ") ws) = ws.
Proof.
  intros Hspace. unfold py_split.
  induction 1 as [|w ws [Hne Hw] Hws IH]; [reflexivity|].
  destruct ws as [|w' ws].
  - simpl. rewrite <- (app_nil_r w) at 1. rewrite split_runs_word by exact Hw.
    simpl. destruct w; [contradiction|reflexivity].
  - change (join (py " ") (w :: w' :: ws))
      with (w ++ 32%N :: join (py " ") (w' :: ws)).
    rewrite split_runs_word by exact Hw.
    rewrite app_nil_l, split_runs_space by assumption. now rewrite IH.
Qed.

(** Splitting and joining: when the space is white space, the pieces that
    [s.split()] returns, joined by single spaces, split into the same pieces
    again; and no piece is empty or holds white space. *)
Lemma split_join_split (s : str) :
  char_isspace 32%N = true →
  py_split (join (py " ") (py_split s)) = py_split s
  ∧ Forall (λ w, w ≠ [] ∧ Forall (λ c, char_isspace c = false) w)
           (py_split s).
Proof.
  intros Hspace.
  assert (Forall (λ w, w ≠ [] ∧ Forall (λ c, char_isspace c = false) w)
                 (py_split s)) as Hall.
  { apply Forall_forall. intros w Hw.
    destruct (py_split_pieces s w Hw) as (Hne & Hns & _). now split. }
  split; [now apply py_split_join|exact Hall].
Qed.
End Splitting.

(** ** Lexicon Loader *)

Lemma universal_newlines_chars (P : char → Prop) (s : str) :
  P 10%N → Forall P s → Forall P (universal_newlines s).
Proof.
  intros H10. remember (length s) as n eqn:Hn.
  revert s Hn. induction n as [n IH] using lt_wf_ind. intros s Hn Hs.
  destruct s as [|c s]; [constructor|]. simpl.
  inversion Hs as [|? ? Hc Hs']; subst.
  destruct (c =? 13)%N.
  - constructor; [exact H10|]. destruct s as [|c' s]; [constructor|].
    inversion Hs' as [|? ? Hc' Hs'']; subst.
    destruct (c' =? 10)%N.
    + apply (IH (length s)); [simpl; lia|reflexivity|exact Hs''].
    + apply (IH (length (c' :: s))); [simpl; lia|reflexivity|exact Hs'].
  - constructor; [exact Hc|].
    apply (IH (length s)); [simpl; lia|reflexivity|exact Hs'].
Qed.

Lemma decode_latin_chars (bytes : list Byte.byte) :
  Forall (λ c, (c < 256)%N) (decode_latin bytes).
Proof.
  unfold decode_latin. apply Forall_forall. intros c Hc.
  apply list_elem_of_fmap in Hc as (b & -> & _).
  pose proof (Byte.to_N_bounded b). lia.
Qed.

Section LoaderFacts.
Context `{Spaces} `{Codec}.

Lemma fold_union_elem {A} (f : A → gset str) (acc : gset str)
    (l : list A) (w : str) :
  w ∈ foldl (λ (acc : gset str) x, acc ∪ f x) acc l
  ↔ w ∈ acc ∨ ∃ x, x ∈ l ∧ w ∈ f x.
Proof.
  revert acc. induction l as [|x l IH]; intros acc; simpl.
  - split; [now left|]. intros [Hw|(x & Hx & _)]; [exact Hw|inversion Hx].
  - rewrite IH, elem_of_union. split.
    + intros [[Hw|Hw]|(y & Hy & Hw)].
      * now left.
      * right. exists x. split; [left|exact Hw].
      * right. exists y. split; [now right|exact Hw].
    + intros [Hw|(y & Hy & Hw)].
      * left. now left.
      * apply elem_of_cons in Hy as [->|Hy].
        -- left. now right.
        -- right. now exists y.
Qed.

Lemma load_stopwords_elem (files : list (list Byte.byte)) (w : str) :
  w ∈ load_stopwords files
  ↔ ∃ bytes, bytes ∈ files
             ∧ w ∈ py_split (universal_newlines (decode_latin bytes)).
Proof.
  unfold load_stopwords.
  rewrite (fold_union_elem
             (λ bytes, list_to_set
                         (py_split (universal_newlines (decode_latin bytes))))).
  split.
  - intros [Hw|(b & Hb & Hw)]; [now apply not_elem_of_empty in Hw|].
    exists b. split; [exact Hb|]. now apply elem_of_list_to_set in Hw.
  - intros (b & Hb & Hw). right. exists b. split; [exact Hb|].
    now apply elem_of_list_to_set.
Qed.

(** X16. The stop words are the white-space separated pieces of the files,
    each file read as Latin-1, whatever the order of the files. So no stop
    word is empty, none holds white space, and none holds a character beyond
    U+00FF. *)
Theorem stop_words_loaded (files : list (list Byte.byte)) :
  (∀ w,
     w ∈ load_stopwords files
     ↔ ∃ bytes, bytes ∈ files
                ∧ w ∈ py_split (universal_newlines (decode_latin bytes)))
  ∧ (∀ w,
       w ∈ load_stopwords files →
       w ≠ [] ∧ Forall (λ c, char_isspace c = false) w
       ∧ Forall (λ c, (c < 256)%N) w)
  ∧ (∀ files', files ≡ₚ files' → load_stopwords files' = load_stopwords files).
Proof.
  split; [apply load_stopwords_elem|]. split.
  - intros w Hw. apply load_stopwords_elem in Hw as (b & _ & Hw).
    destruct (py_split_pieces _ w Hw) as (Hne & Hns & Hch).
    split; [exact Hne|]. split; [exact Hns|].
    pose proof (universal_newlines_chars (λ c, (c < 256)%N) (decode_latin b)
                  eq_refl (decode_latin_chars b)) as Hsmall.
    rewrite Forall_forall in Hsmall. eapply Forall_impl; [exact Hch|].
    intros c Hc. now apply Hsmall.
  - intros files' Hperm. apply set_eq. intros w.
    rewrite !load_stopwords_elem. split; intros (b & Hb & Hw); exists b;
      (split; [|exact Hw]).
    + now rewrite Hperm.
    + now rewrite <- Hperm.
Qed.

Lemma load_words_pieces (file : option (list Byte.byte)) (words : gset str) :
  load_words file = Some words →
  ∀ w, w ∈ words → w ≠ [] ∧ Forall (λ c, char_isspace c = false) w.
Proof.
  unfold load_words. destruct file as [bytes|]; [simpl|discriminate].
  destruct (decode_utf8 bytes) as [text|]; intros [= <-] w Hw;
    apply elem_of_union in Hw as [Hw|Hw];
    try (now apply not_elem_of_empty in Hw);
    apply elem_of_list_to_set in Hw;
    destruct (py_split_pieces _ w Hw) as (Hne & Hns & _); now split.
Qed.

Lemma load_words_none (file : option (list Byte.byte)) :
  load_words file = None ↔ file = None.
Proof.
  unfold load_words. destruct file as [bytes|]; simpl.
  - destruct (decode_utf8 bytes); split; discriminate.
  - split; reflexivity.
Qed.

Lemma load_words_latin (bytes : list Byte.byte) (words : gset str) :
  decode_utf8 bytes = None →
  load_words (Some bytes) = Some words →
  ∀ w, w ∈ words → Forall (λ c, (c < 256)%N) w.
Proof.
  unfold load_words. simpl. intros ->. intros [= <-] w Hw.
  apply elem_of_union in Hw as [Hw|Hw]; [now apply not_elem_of_empty in Hw|].
  apply elem_of_list_to_set in Hw.
  destruct (py_split_pieces _ w Hw) as (_ & _ & Hch).
  pose proof (universal_newlines_chars (λ c, (c < 256)%N) (decode_latin bytes)
                eq_refl (decode_latin_chars bytes)) as Hsmall.
  rewrite Forall_forall in Hsmall. eapply Forall_impl; [exact Hch|].
  intros c Hc. now apply Hsmall.
Qed.

Lemma load_words_elem (bytes : list Byte.byte) (words : gset str) :
  load_words (Some bytes) = Some words →
  ∀ w,
    w ∈ words
    ↔ w ∈ py_split
            (universal_newlines
               (match decode_utf8 bytes with
                | Some text => text
                | None => decode_latin bytes
                end)).
Proof.
  unfold load_words. simpl.
  destruct (decode_utf8 bytes) as [text|]; intros [= <-] w;
    rewrite elem_of_union, elem_of_list_to_set; split;
    try (intros [Hw|Hw]; [now apply not_elem_of_empty in Hw|exact Hw]);
    intros Hw; now right.
Qed.

(** X17. Loading the two dictionaries fails when one of the two files does
    not exist. When both exist, a set is the set of the white-space
    separated pieces of its file, read as UTF-8 or, when its bytes are not
    UTF-8, read as Latin-1, which is no failure; the words of a file read as
    Latin-1 hold no character beyond U+00FF. No loaded word is empty or
    holds white space. *)
Theorem master_dict_loaded
    (positive_file negative_file : option (list Byte.byte)) :
  (positive_file = None ∨ negative_file = None →
   load_master_dict positive_file negative_file = None)
  ∧ (∀ positive_bytes negative_bytes,
       positive_file = Some positive_bytes →
       negative_file = Some negative_bytes →
       ∃ positive_words negative_words,
         load_master_dict positive_file negative_file
         = Some (positive_words, negative_words)
         ∧ (∀ w,
              w ∈ positive_words
              ↔ w ∈ py_split
                      (universal_newlines
                         (match decode_utf8 positive_bytes with
                          | Some text => text
                          | None => decode_latin positive_bytes
                          end)))
         ∧ (∀ w,
              w ∈ negative_words
              ↔ w ∈ py_split
                      (universal_newlines
                         (match decode_utf8 negative_bytes with
                          | Some text => text
                          | None => decode_latin negative_bytes
                          end))))
  ∧ (∀ positive_words negative_words,
       load_master_dict positive_file negative_file
       = Some (positive_words, negative_words) →
       (∀ w, w ∈ positive_words ∪ negative_words →
             w ≠ [] ∧ Forall (λ c, char_isspace c = false) w)
       ∧ (∀ bytes, positive_file = Some bytes → decode_utf8 bytes = None →
                   ∀ w, w ∈ positive_words → Forall (λ c, (c < 256)%N) w)
       ∧ (∀ bytes, negative_file = Some bytes → decode_utf8 bytes = None →
                   ∀ w, w ∈ negative_words → Forall (λ c, (c < 256)%N) w)).
Proof.
  unfold load_master_dict. split; [|split].
  - intros [->| ->]; [reflexivity|].
    now destruct (load_words positive_file).
  - intros pb nb -> ->.
    destruct (load_words (Some pb)) as [pw|] eqn:Hp;
      [|apply load_words_none in Hp; discriminate].
    destruct (load_words (Some nb)) as [nw|] eqn:Hn;
      [|apply load_words_none in Hn; discriminate].
    exists pw, nw. split; [reflexivity|]. split.
    + now apply load_words_elem.
    + now apply load_words_elem.
  - intros pw nw Hload.
    destruct (load_words positive_file) as [pw'|] eqn:Hp; [|discriminate].
    destruct (load_words negative_file) as [nw'|] eqn:Hn; [|discriminate].
    simpl in Hload. injection Hload as -> ->. split; [|split].
    + intros w Hw. apply elem_of_union in Hw as [Hw|Hw].
      * now apply (load_words_pieces positive_file pw).
      * now apply (load_words_pieces negative_file nw).
    + intros bytes -> Hdec. now apply (load_words_latin bytes).
    + intros bytes -> Hdec. now apply (load_words_latin bytes).
Qed.
End LoaderFacts.

(** ** Reading an article file *)

Lemma readline_line (line rest : str) :
  10%N ∉ line → readline (line ++ 10%N :: rest) = (line ++ [10%N], rest).
Proof.
  induction line as [|c line IH]; intros Hfree; simpl; [reflexivity|].
  destruct (N.eqb_spec c 10) as [->|Hne].
  - exfalso. apply Hfree. left.
  - rewrite IH; [reflexivity|]. intros Hin. apply Hfree. now right.
Qed.

Lemma readline_last_line (s : str) : 10%N ∉ s → readline s = (s, []).
Proof.
  induction s as [|c s IH]; intros Hfree; simpl; [reflexivity|].
  destruct (N.eqb_spec c 10) as [->|Hne].
  - exfalso. apply Hfree. left.
  - rewrite IH; [reflexivity|]. intros Hin. apply Hfree. now right.
Qed.

Lemma universal_newlines_line (line rest : str) :
  13%N ∉ line →
  universal_newlines (line ++ 10%N :: rest)
  = line ++ 10%N :: universal_newlines rest.
Proof.
  induction line as [|c line IH]; intros Hfree; [reflexivity|].
  change ((c :: line) ++ 10%N :: rest) with (c :: (line ++ 10%N :: rest)).
  cbn [universal_newlines].
  destruct (N.eqb_spec c 13) as [->|Hne].
  - exfalso. apply Hfree. left.
  - rewrite IH; [reflexivity|]. intros Hin. apply Hfree. now right.
Qed.

Section Stripping.
Context `{Spaces}.

Lemma lstrip_snoc (s : str) (c : char) :
  char_isspace c = true →
  lstrip (s ++ [c]) = match lstrip s with [] => [] | l => l ++ [c] end.
Proof.
  intros Hc. induction s as [|x s IH]; simpl.
  - now rewrite Hc.
  - destruct (char_isspace x); [exact IH|reflexivity].
Qed.

Lemma rstrip_snoc (s : str) (c : char) :
  char_isspace c = true → rstrip (s ++ [c]) = rstrip s.
Proof.
  intros Hc. unfold rstrip. rewrite reverse_snoc. simpl. now rewrite Hc.
Qed.

Lemma strip_snoc (s : str) (c : char) :
  char_isspace c = true → strip (s ++ [c]) = strip s.
Proof.
  intros Hc. unfold strip. rewrite (lstrip_snoc s c Hc).
  destruct (lstrip s) as [|x l]; [reflexivity|].
  now apply rstrip_snoc.
Qed.

(** X18. The file format between the two stages. When the line feed is
    white space and the title holds no line end, the file that
    [extract_data] writes for a title and an article text is read by
    [analyze_data] as that title, stripped, and that article text, with its
    line ends made line feeds and stripped: the title stays out of the
    text that is scored. *)
Theorem article_file_round_trip :
  char_isspace 10%N = true →
  ∀ title article_text : str,
    10%N ∉ title → 13%N ∉ title →
    read_article (universal_newlines (article_file_text title article_text))
    = (strip title, strip (universal_newlines article_text)).
Proof.
  intros Hlf title body H10 H13. unfold read_article, article_file_text.
  rewrite (universal_newlines_line title body H13).
  rewrite (readline_line title _ H10).
  now rewrite (strip_snoc title 10%N Hlf).
Qed.

(** X19. What [analyze_data] takes as title and as article text: in a text
    without line feed, all of it is the title and the article text is
    empty; otherwise the title is the first line and the article text is
    all that follows the first line feed, later lines of a title of several
    lines included. *)
Theorem first_line_is_title (text : str) :
  (10%N ∉ text → read_article text = (strip text, []))
  ∧ (∀ line rest,
       text = line ++ 10%N :: rest → 10%N ∉ line →
       read_article text = (strip (line ++ [10%N]), strip rest)).
Proof.
  split.
  - intros Hfree. unfold read_article. now rewrite readline_last_line.
  - intros line rest -> Hfree. unfold read_article.
    now rewrite readline_line.
Qed.
End Stripping.

Lemma article_file_round_trip_witness :
  @read_article ascii_spaces
    (universal_newlines
       (article_file_text (py " Rising IT cities ")
                          (py "Cities grow. We see it."))) 
  = (@strip ascii_spaces (py " Rising IT cities "),
     @strip ascii_spaces (universal_newlines (py "Cities grow. We see it."))).
Proof.
  apply (@article_file_round_trip ascii_spaces eq_refl
           (py " Rising IT cities ") (py "Cities grow. We see it."));
    refine (bool_decide_unpack _ _); vm_compute; exact I.
Defined.

(** ** Analysis Orchestrator *)

Section OrchestratorFacts.
Context `{Unicode} `{Tokenizer} `{Spaces} `{Codec}.

Lemma load_master_dict_none
    (positive_file negative_file : option (list Byte.byte)) :
  load_master_dict positive_file negative_file = None
  ↔ positive_file = None ∨ negative_file = None.
Proof.
  unfold load_master_dict.
  destruct (load_words positive_file) as [pw|] eqn:Hp; simpl.
  - destruct (load_words negative_file) as [nw|] eqn:Hn; simpl.
    + split; [discriminate|]. intros [->| ->]; simpl in *; discriminate.
    + apply load_words_none in Hn. split; [now right|reflexivity].
  - apply load_words_none in Hp. split; [now left|reflexivity].
Qed.

(** The row of a file whose bytes decode: the three scorers do not fail, and
    the row holds their results. *)
Lemma analyze_article_decoded
    (stop_words positive_words negative_words : gset str)
    (url_mapping : gmap str str) (file_name : str)
    (bytes : list Byte.byte) (text : str) :
  decode_utf8 bytes = Some text →
  ∃ sentiment readability additional,
    calculate_sentiment_scores
      (clean_and_tokenize (read_article (universal_newlines text)).2
         stop_words)
      positive_words negative_words = Some sentiment
    ∧ calculate_readability_scores (read_article (universal_newlines text)).2
      = Some readability
    ∧ calculate_additional_scores
        (clean_and_tokenize (read_article (universal_newlines text)).2
           stop_words)
      = Some additional
    ∧ analyze_article stop_words positive_words negative_words url_mapping
        file_name bytes
      = Some {| URL_ID := before_first 46%N file_name;
                URL := dict_get url_mapping (before_first 46%N file_name) [];
                POSITIVE_SCORE := positive_score sentiment;
                NEGATIVE_SCORE := negative_score sentiment;
                POLARITY_SCORE := polarity_score sentiment;
                SUBJECTIVITY_SCORE := subjectivity_score sentiment;
                AVG_SENTENCE_LENGTH := avg_sentence_length readability;
                PERCENTAGE_OF_COMPLEX_WORDS :=
                  percentage_complex_words readability;
                FOG_INDEX := fog_index readability;
                AVG_NUMBER_OF_WORDS_PER_SENTENCE :=
                  avg_sentence_length readability;
                COMPLEX_WORD_COUNT := complex_word_count readability;
                WORD_COUNT := word_count readability;
                SYLLABLE_PER_WORD := avg_syllables_per_word additional;
                PERSONAL_PRONOUNS := personal_pronouns additional;
                AVG_WORD_LENGTH := avg_word_length additional |}.
Proof.
  intros Hdec. unfold analyze_article, url_id_of, split_on.
  rewrite split_pieces_first, Hdec. simpl.
  destruct (read_article (universal_newlines text)) as [title article_text].
  simpl.
  rewrite sentiment_total, readability_value, additional_value. simpl.
  eexists _, _, _. repeat split; reflexivity.
Qed.

Lemma analyze_article_none
    (stop_words positive_words negative_words : gset str)
    (url_mapping : gmap str str) (file_name : str) (bytes : list Byte.byte) :
  analyze_article stop_words positive_words negative_words url_mapping
    file_name bytes = None
  ↔ decode_utf8 bytes = None.
Proof.
  destruct (decode_utf8 bytes) as [text|] eqn:Hdec.
  - destruct (analyze_article_decoded stop_words positive_words
                negative_words url_mapping file_name bytes text Hdec)
      as (s & r & a & _ & _ & _ & ->).
    split; discriminate.
  - split; [reflexivity|]. intros _.
    unfold analyze_article, url_id_of, split_on.
    rewrite split_pieces_first, Hdec. reflexivity.
Qed.
End OrchestratorFacts.

Section OrchestratorRows.
Context `{Unicode} `{Tokenizer} `{Spaces} `{Codec}.

Lemma analyze_article_row
    (stop_words positive_words negative_words : gset str)
    (url_mapping : gmap str str) (file_name : str)
    (bytes : list Byte.byte) (row : score_row) :
  analyze_article stop_words positive_words negative_words url_mapping
    file_name bytes = Some row →
  URL_ID row = before_first 46%N file_name
  ∧ URL row = dict_get url_mapping (URL_ID row) []
  ∧ AVG_NUMBER_OF_WORDS_PER_SENTENCE row = AVG_SENTENCE_LENGTH row
  ∧ FOG_INDEX row
    = ((4 # 10)
       * (AVG_SENTENCE_LENGTH row + PERCENTAGE_OF_COMPLEX_WORDS row))%Q
  ∧ 0 ≤ COMPLEX_WORD_COUNT row ≤ WORD_COUNT row
  ∧ 0 ≤ POSITIVE_SCORE row ∧ 0 ≤ NEGATIVE_SCORE row
  ∧ (- (1) <= POLARITY_SCORE row)%Q ∧ (POLARITY_SCORE row <= 1)%Q.
Proof.
  intros Hrow. destruct (decode_utf8 bytes) as [text|] eqn:Hdec.
  - destruct (analyze_article_decoded stop_words positive_words
                negative_words url_mapping file_name bytes text Hdec)
      as (s & r & a & Hs & Hr & Ha & Heq).
    rewrite Heq in Hrow. injection Hrow as <-. simpl.
    pose proof (polarity_in_range _ _ _ _ Hs) as [Hlo Hhi].
    rewrite sentiment_total in Hs. injection Hs as <-.
    rewrite readability_value in Hr. injection Hr as <-. simpl in *.
    pose proof (members_bounds
                  (clean_and_tokenize
                     (read_article (universal_newlines text)).2 stop_words)
                  positive_words) as [Hp _].
    pose proof (members_bounds
                  (clean_and_tokenize
                     (read_article (universal_newlines text)).2 stop_words)
                  negative_words) as [Hn _].
    pose proof (length_filter is_complex
                  (word_tokenize (read_article (universal_newlines text)).2))
      as Hc.
    repeat split; try assumption; try reflexivity; unfold len; lia.
  - rewrite (proj2 (analyze_article_none stop_words positive_words
                      negative_words url_mapping file_name bytes) Hdec)
      in Hrow.
    discriminate.
Qed.

(** X20. The run of [analyze_data] ends in an exception when one of the
    two dictionary files does not exist, and when a file of the article
    directory whose name ends in ".txt" is not UTF-8. When the run comes to
    its end, there is one row for each file of the directory whose name ends
    in ".txt" and none for the other files, in the order of the directory
    listing; its URL_ID is the file name up to its first dot and its URL
    what the mapping of the input sheet holds for that identifier, or the
    empty string. *)
Theorem analysis_rows
    (stop_files : list (list Byte.byte))
    (positive_file negative_file : option (list Byte.byte))
    (url_ids urls : list str)
    (article_dir : list (str * list Byte.byte)) :
  (positive_file = None ∨ negative_file = None
   ∨ (∃ file, file ∈ article_dir
              ∧ endswith file.1 (py ".txt") = true
              ∧ decode_utf8 file.2 = None) →
   analyze_data stop_files positive_file negative_file url_ids urls
     article_dir = None)
  ∧ (∀ rows,
       analyze_data stop_files positive_file negative_file url_ids urls
         article_dir = Some rows →
       map URL_ID rows
       = map (λ file, before_first 46%N file.1)
             (filter (λ file, endswith file.1 (py ".txt") = true) article_dir)
       ∧ map URL rows
         = map (λ url_id, dict_get (dict_of (zip url_ids urls)) url_id [])
               (map URL_ID rows)).
Proof.
  unfold analyze_data.
  destruct (load_master_dict positive_file negative_file) as [dicts|] eqn:Hd;
    simpl.
  - assert (¬ (positive_file = None ∨ negative_file = None)) as Hfiles.
    { intros Hnone. apply load_master_dict_none in Hnone. congruence. }
    split.
    + intros [Hn|[Hn|(file & Hin & Hend & Hdec)]];
        [exfalso; apply Hfiles; now left
        |exfalso; apply Hfiles; now right|].
      apply mapM_None, Exists_exists. exists file. split.
      * apply list_elem_of_filter. now split.
      * now apply analyze_article_none.
    + intros rows Hrows. apply mapM_Some_1 in Hrows.
      induction Hrows as [|file row files rows Hrow _ [IH1 IH2]];
        [now split|].
      apply analyze_article_row in Hrow as (Hid & Hurl & _).
      simpl. rewrite IH1, <- Hid. split; [reflexivity|].
      rewrite Hurl, IH2, IH1. reflexivity.
  - split; [reflexivity|discriminate].
Qed.

(** X21. In every row that [analyze_data] puts out the column AVG NUMBER
    OF WORDS PER SENTENCE repeats the column AVG SENTENCE LENGTH; the fog
    index is 0.4 times the sum of the average sentence length and the share
    of complex words; the complex word count is at most the word count; the
    positive and negative scores are not negative; the polarity score is
    between -1 and 1; and the URL_ID holds no dot. *)
Theorem analysis_row_invariants
    (stop_files : list (list Byte.byte))
    (positive_file negative_file : option (list Byte.byte))
    (url_ids urls : list str)
    (article_dir : list (str * list Byte.byte)) :
  match analyze_data stop_files positive_file negative_file url_ids urls
          article_dir with
  | Some rows =>
      Forall
        (λ row,
           AVG_NUMBER_OF_WORDS_PER_SENTENCE row = AVG_SENTENCE_LENGTH row
           ∧ FOG_INDEX row
             = ((4 # 10)
                * (AVG_SENTENCE_LENGTH row
                   + PERCENTAGE_OF_COMPLEX_WORDS row))%Q
           ∧ 0 ≤ COMPLEX_WORD_COUNT row ≤ WORD_COUNT row
           ∧ 0 ≤ POSITIVE_SCORE row ∧ 0 ≤ NEGATIVE_SCORE row
           ∧ (- (1) <= POLARITY_SCORE row)%Q ∧ (POLARITY_SCORE row <= 1)%Q
           ∧ (46%N ∉ URL_ID row))
        rows
  | None => True
  end.
Proof.
  unfold analyze_data.
  destruct (load_master_dict positive_file negative_file) as [dicts|];
    simpl; [|exact I].
  match goal with
  | |- match ?m with _ => _ end => destruct m as [rows|] eqn:Hrows
  end; [|exact I].
  apply mapM_Some_1 in Hrows.
  induction Hrows as [|file row files rows Hrow _ IH]; constructor;
    [|exact IH].
  apply analyze_article_row in Hrow
    as (Hid & _ & Havg & Hfog & Hcount & Hp & Hn & Hlo & Hhi).
  repeat split; try assumption; try apply Hcount.
  rewrite Hid. apply before_first_free.
Qed.
End OrchestratorRows.

Section EmptyArticle.
Context `{Unicode} `{Tokenizer} `{Spaces} `{Codec}.

(** X22. A file without article text gets a row of zeros: when the text
    after the first line is empty or white space only, as in an empty file,
    in a file of one line, with or without line end, and in the file written
    for a page whose article has no text, and when the tokenizers find no
    sentence and no word in the empty text, every score of the row is 0 and
    nothing fails. *)
Theorem row_of_empty_article :
  sent_tokenize [] = [] → word_tokenize [] = [] →
  word_tokenize (str_lower []) = [] →
  ∀ (stop_words positive_words negative_words : gset str)
    (url_mapping : gmap str str) (file_name : str)
    (bytes : list Byte.byte) (text : str),
    decode_utf8 bytes = Some text →
    (read_article (universal_newlines text)).2 = [] →
    ∃ row,
      analyze_article stop_words positive_words negative_words url_mapping
        file_name bytes = Some row
      ∧ POSITIVE_SCORE row = 0 ∧ NEGATIVE_SCORE row = 0
      ∧ (POLARITY_SCORE row == 0)%Q ∧ (SUBJECTIVITY_SCORE row == 0)%Q
      ∧ (AVG_SENTENCE_LENGTH row == 0)%Q
      ∧ (PERCENTAGE_OF_COMPLEX_WORDS row == 0)%Q
      ∧ (FOG_INDEX row == 0)%Q
      ∧ (AVG_NUMBER_OF_WORDS_PER_SENTENCE row == 0)%Q
      ∧ COMPLEX_WORD_COUNT row = 0 ∧ WORD_COUNT row = 0
      ∧ (SYLLABLE_PER_WORD row == 0)%Q
      ∧ PERSONAL_PRONOUNS row = 0
      ∧ (AVG_WORD_LENGTH row == 0)%Q.
Proof.
  intros Hsent Hword Hlower sw pos neg mapping name bytes text Hdec Hempty.
  unfold analyze_article, url_id_of, split_on.
  rewrite split_pieces_first, Hdec. simpl.
  destruct (read_article (universal_newlines text)) as [title article_text].
  simpl in Hempty. subst article_text.
  unfold clean_and_tokenize, calculate_readability_scores.
  rewrite Hlower, Hsent, Hword. simpl.
  eexists. split; [reflexivity|]. simpl. repeat split; reflexivity.
Qed.

(** The article text is empty when the text has no line feed, and when what
    follows the first line is white space only. *)
Lemma no_article_without_line_feed (text : str) :
  10%N ∉ text → (read_article text).2 = [].
Proof.
  intros Hfree. unfold read_article. now rewrite readline_last_line.
Qed.

Lemma lstrip_spaces (s : str) :
  Forall (λ c, char_isspace c = true) s → lstrip s = [].
Proof. induction 1 as [|c s Hc _ IH]; simpl; [reflexivity|now rewrite Hc]. Qed.

Lemma no_article_in_blank_rest (line rest : str) :
  10%N ∉ line → Forall (λ c, char_isspace c = true) rest →
  (read_article (line ++ 10%N :: rest)).2 = [].
Proof.
  intros Hfree Hrest. unfold read_article. rewrite readline_line by exact Hfree.
  simpl. unfold strip. now rewrite lstrip_spaces.
Qed.
End EmptyArticle.

Lemma row_of_empty_article_witness :
  ∃ row,
    @analyze_article Simple.unicode Simple.tokenizer ascii_spaces ascii_codec
      {[py "the"]} {[py "good"]} {[py "bad"]}
      (dict_of [(py "a1", py "https://a.example/1")])
      (py "a1.txt") (bytes_of "Only a title" ++ [Byte.x0a]) = Some row
    ∧ POSITIVE_SCORE row = 0 ∧ NEGATIVE_SCORE row = 0
    ∧ (POLARITY_SCORE row == 0)%Q ∧ (SUBJECTIVITY_SCORE row == 0)%Q
    ∧ (AVG_SENTENCE_LENGTH row == 0)%Q
    ∧ (PERCENTAGE_OF_COMPLEX_WORDS row == 0)%Q
    ∧ (FOG_INDEX row == 0)%Q
    ∧ (AVG_NUMBER_OF_WORDS_PER_SENTENCE row == 0)%Q
    ∧ COMPLEX_WORD_COUNT row = 0 ∧ WORD_COUNT row = 0
    ∧ (SYLLABLE_PER_WORD row == 0)%Q
    ∧ PERSONAL_PRONOUNS row = 0
    ∧ (AVG_WORD_LENGTH row == 0)%Q.
Proof.
  apply (@row_of_empty_article Simple.unicode Simple.tokenizer ascii_spaces
           ascii_codec eq_refl eq_refl eq_refl
           {[py "the"]} {[py "good"]} {[py "bad"]}
           (dict_of [(py "a1", py "https://a.example/1")])
           (py "a1.txt") (bytes_of "Only a title" ++ [Byte.x0a])
           (py "Only a title" ++ [10%N])).
  - reflexivity.
  - reflexivity.
Defined.

(** ** Document extraction *)


Section Extraction.
Context `{Web} `{Disk}.







End Extraction.


(** On a sheet of two rows, the page of the second row has no article: no
    file is written for it, and the run comes to its end. *)
Example extraction_skips_page_without_article :
  (@extract_data example_web open_disk
     [py "a1"; py "a2"] [py "https://a.example/1"; py "https://a.example/2"]
     ∅).1 !! article_file_name (py "a2") = None
  ∧ (@extract_data example_web open_disk
       [py "a1"; py "a2"]
       [py "https://a.example/1"; py "https://a.example/2"] ∅).2 = true.
Proof. split; vm_compute; reflexivity. Qed.

(** ** The loader with the cleaner *)

Section LoadedStopWords.
Context `{Unicode} `{Tokenizer} `{Spaces}.

(** X25. The loader keeps the case of the stop-word files and the cleaner
    compares lower-cased tokens with them. So when the tokenizer keeps the
    case of words and every entry of the files is changed by lower-casing,
    as in files written in capitals, the loaded stop words remove nothing:
    the text is cleaned as with no stop word at all. *)
Theorem capital_stop_words_remove_nothing :
  tokens_stay_lower →
  ∀ (files : list (list Byte.byte)) (text : str),
    (∀ entry, entry ∈ load_stopwords files → str_lower entry ≠ entry) →
    clean_and_tokenize text (load_stopwords files)
    = clean_and_tokenize text ∅.
Proof.
  intros Hlow files text Hcaps. apply clean_agree. intros w Hw Ha.
  pose proof (Hlow text w Hw Ha) as Hfix. split.
  - intros Hin. exfalso. now apply (Hcaps w Hin).
  - intros Hin. now apply not_elem_of_empty in Hin.
Qed.
End LoadedStopWords.

Lemma capital_stop_words_remove_nothing_witness :
  @clean_and_tokenize Simple.unicode Simple.tokenizer
    (py "The cat and the dog")
    (@load_stopwords ascii_spaces [bytes_of "THE AND"])
  = @clean_and_tokenize Simple.unicode Simple.tokenizer
      (py "The cat and the dog") ∅.
Proof.
  apply (@capital_stop_words_remove_nothing Simple.unicode Simple.tokenizer
           ascii_spaces simple_tokens_stay_lower
           [bytes_of "THE AND"] (py "The cat and the dog")).
  intros entry Hin.
  apply (@load_stopwords_elem ascii_spaces) in Hin as (bytes & Hb & Hin).
  apply list_elem_of_singleton in Hb. subst bytes. vm_compute in Hin.
  apply elem_of_cons in Hin as [->|Hin]; [discriminate|].
  apply elem_of_cons in Hin as [->|Hin]; [discriminate|].
  inversion Hin.
Defined.

(** With those capitals as stop words "the" and "and" stay in the text. *)
Example capital_stop_words_in_example :
  @clean_and_tokenize Simple.unicode Simple.tokenizer
    (py "The cat and the dog")
    (@load_stopwords ascii_spaces [bytes_of "THE AND"])
  = map py ["the"; "cat"; "and"; "the"; "dog"].
Proof. vm_compute. reflexivity. Qed.

(** A run of [analyze_data] on a directory of two files: the file whose
    name does not end in ".txt" gets no row, the title line is not scored,
    and "good" is the one hit among the cleaned words "day" and "good". *)
Example analysis_in_example :
  ∃ row,
    @analyze_data Simple.unicode Simple.tokenizer ascii_spaces ascii_codec
      [bytes_of "the is"]
      (Some (bytes_of "good")) (Some (bytes_of "bad"))
      [py "a1"] [py "https://a.example/1"]
      [(py "a1.txt",
        bytes_of "A good title" ++ [Byte.x0a] ++ bytes_of "The day is good");
       (py "notes.md", bytes_of "good good")]
    = Some [row]
    ∧ URL_ID row = py "a1" ∧ URL row = py "https://a.example/1"
    ∧ POSITIVE_SCORE row = 1 ∧ NEGATIVE_SCORE row = 0
    ∧ WORD_COUNT row = 4 ∧ COMPLEX_WORD_COUNT row = 0.
Proof.
  eexists. split; [vm_compute; reflexivity|]. simpl. repeat split.
Qed.
